(** * Québec 511 camera slideshow: feed loader, media URLs and playback state

    A shallow embedding of the application module (the feed hook
    [useCameras], [normalizeCamera], [extractIdFromFenetre], [buildVariants],
    the [MediaPane] state handlers and variants memo, [useShuffle], the
    [Slideshow] index arithmetic and advance timer, and the [filtered] list
    of [App]) together with the properties the specification states about
    them.

    Conventions.
    - A [string] is a sequence of character codes below 256; [String.le] is
      the code-wise lexicographic order the default [Array.prototype.sort]
      uses on strings.
    - The cache-bust counter is a natural number; the counters and timer
      arguments are far below 2^53, where the arithmetic of the source is
      exact.
    - What the browser provides (URL parsing, [trim], [toLowerCase], the CSV
      parser, the deployment base [ORIGIN]) is an interface, [Platform]; the
      theorems hold for every implementation of it, and [Browser.browser] is
      a small implementation used to run the definitions on examples. *)

From Stdlib Require Import ZArith QArith Qround DecimalString DecimalNat Ascii.
From stdpp Require Import base option list strings sorting gmap.

Local Open Scope string_scope.
Local Open Scope list_scope.
Local Open Scope nat_scope.

(** ** Values of the host language *)

(** A property value of a feed record: JSON strings and integer numbers.
    An absent property (and JSON [null]) is a failed lookup. *)
Inductive JsVal :=
  | VStr (s : string)
  | VNum (n : Z).

(** A coordinate carried through from the feed: a number taken from a
    GeoJSON geometry, or the text of a CSV column. *)
Inductive JsCoord :=
  | CNum (q : Q)
  | CStr (s : string).

Module Js.

(** [String(n)] for an integer [n]. *)
Definition string_of_Z (n : Z) : string :=
  NilZero.string_of_int (Z.to_int n).

(** The text a template literal inserts for a counter. *)
Definition string_of_nat (n : nat) : string :=
  NilZero.string_of_uint (Nat.to_uint n).

(** [String(v)] *)
Definition String_ (v : JsVal) : string :=
  match v with
  | VStr s => s
  | VNum n => string_of_Z n
  end.

(** Truthiness of a string: only the empty string is falsy. *)
Definition truthy_str (s : string) : bool :=
  match s with
  | "" => false
  | _ => true
  end.

(** Truthiness of a property value. *)
Definition truthy (v : JsVal) : bool :=
  match v with
  | VStr s => truthy_str s
  | VNum n => negb (n =? 0)%Z
  end.

(** [a || b] where [a] is a property read (absent reads are [undefined],
    which is falsy). *)
Definition or_else (a : option JsVal) (b : option JsVal) : option JsVal :=
  match a with
  | Some v => if truthy v then a else b
  | None => b
  end.

(** [hay.includes(needle)] *)
Fixpoint includes (needle hay : string) : bool :=
  String.prefix needle hay ||
  match hay with
  | "" => false
  | String _ rest => includes needle rest
  end.

End Js.

(** ** The platform interface *)

(** Options handed to the CSV parser. *)
Record PapaConfig := { header : bool; skipEmptyLines : bool }.

Class Platform := {
  (** The proxy-aware base of the media endpoints. *)
  ORIGIN : string;
  (** [new URL(s)]: [None] when the constructor throws. *)
  URL : Type;
  URL_new : string → option URL;
  (** [u.searchParams.get(name)]: [None] for [null]. *)
  searchParams_get : URL → string → option string;
  (** The empty string is not a URL. *)
  URL_new_empty : URL_new "" = None;
  (** [s.trim()] and [s.toLowerCase()] *)
  trim : string → string;
  toLowerCase : string → string;
  (** [Papa.parse(text, config).data] with [header: true]: one object per
      data row, keyed by the header row. *)
  Papa_parse : string → PapaConfig → list (gmap string string);
}.

(** ** Camera records *)

Record CameraRecord := {
  id : string;
  number : string;
  nameFr : string;
  nameEn : string;
  since : string;
  route : string;
  region : string;
  border : string;
  bridge : string;
  url : string;
  imgDirect : string;
  lat : option JsCoord;
  lon : option JsCoord;
}.

(** The object handed to [normalizeCamera]: the feed properties, with the
    two coordinates under [lat] and [lon]. *)
Record RawRecord := {
  props : gmap string JsVal;
  r_lat : option JsCoord;
  r_lon : option JsCoord;
}.

Section normalize.
Context `{Platform}.

(** [String(a || b || ... || "")] *)
Definition str_of (v : option JsVal) : string :=
  match v with
  | Some v => if Js.truthy v then Js.String_ v else ""
  | None => ""
  end.

(** [(a || "").trim()]: calling [trim] on a number throws. *)
Definition trimmed (v : option JsVal) : option string :=
  match v with
  | Some (VStr s) => Some (trim s)
  | Some (VNum n) => if Js.truthy (VNum n) then None else Some (trim "")
  | None => Some (trim "")
  end.

(** [(a || "").trim?.() || ""]: the optional call skips a number. *)
Definition trimmed_opt (v : option JsVal) : string :=
  match v with
  | Some (VStr s) => trim s
  | Some (VNum n) => if Js.truthy (VNum n) then "" else trim ""
  | None => trim ""
  end.

(** [normalizeCamera(r)]; [None] when it throws. *)
Definition normalizeCamera (r : RawRecord) : option CameraRecord :=
  let p := props r in
  let id_ := str_of (Js.or_else (p !! "IDEcamera")
               (Js.or_else (p !! "idecamera") (p !! "id"))) in
  let number_ := str_of (Js.or_else (p !! "NumeroCamera") (p !! "numerocamera")) in
  nameFr_ ← trimmed (p !! "DescriptionLocalisationFr");
  nameEn_ ← trimmed (p !! "DescriptionLocalisationEn");
  since_ ← trimmed (p !! "DateDebutDiffusion");
  let route_ := trim (str_of (p !! "NumeroRoute")) in
  region_ ← trimmed (p !! "NomRegionDiffusion");
  border_ ← trimmed (p !! "NomPosteFrontalier");
  bridge_ ← trimmed (p !! "NomPontFrontalier");
  url_ ← trimmed (Js.or_else (p !! "URL_FLUX_DONNEE")
                   (Js.or_else (p !! "url_flux_donnee") (p !! "url")));
  let img := trimmed_opt (Js.or_else (p !! "url-image-en-direct")
                            (p !! "url_image_en_direct")) in
  Some {| id := id_; number := number_; nameFr := nameFr_; nameEn := nameEn_;
          since := since_; route := route_; region := region_;
          border := border_; bridge := bridge_; url := url_;
          imgDirect := img; lat := r_lat r; lon := r_lon r |}.

End normalize.

(** ** Media URLs *)

(** The object [buildVariants] returns when an id was found. *)
Record Variants := {
  v_id : string;
  v_snap : string;
  v_jpg : string;
  v_m3u8 : string;
  v_html : string;
}.

Section variants.
Context `{Platform}.

(** [extractIdFromFenetre(url)] *)
Definition extractIdFromFenetre (url : string) : string :=
  match URL_new url with
  | Some u =>
      match searchParams_get u "id" with
      | Some id => if Js.truthy_str id then id else ""
      | None => ""
      end
  | None => ""
  end.

(** The inner helper [withSalt] of [buildVariants]. *)
Definition withSalt (salt : nat) (u : string) : string :=
  if Js.truthy_str u
  then u +:+ (if Js.includes "?" u then "&" else "?") +:+ "_rs=" +:+ Js.string_of_nat salt
  else u.

(** [camera?.imgDirect || `${ORIGIN}/Images/Cameras/Quebec/cam/${id}.jpg`] *)
Definition primarySnap (camera : option CameraRecord) (id : string) : string :=
  match camera with
  | Some c =>
      if Js.truthy_str (imgDirect c) then imgDirect c
      else ORIGIN +:+ "/Images/Cameras/Quebec/cam/" +:+ id +:+ ".jpg"
  | None => ORIGIN +:+ "/Images/Cameras/Quebec/cam/" +:+ id +:+ ".jpg"
  end.

(** [buildVariants(camera, salt)]; [None] is the empty object. *)
Definition buildVariants (camera : option CameraRecord) (salt : nat) : option Variants :=
  let fen := match camera with
             | Some c => if Js.truthy_str (url c) then url c else ""
             | None => ""
             end in
  let id := extractIdFromFenetre fen in
  if negb (Js.truthy_str id) then None
  else Some {|
    v_id := id;
    v_snap := withSalt salt (primarySnap camera id);
    v_jpg := withSalt salt (ORIGIN +:+ "/Carte/Fenetres/camera.ashx?id=" +:+ id +:+ "&format=jpg");
    v_m3u8 := withSalt salt (ORIGIN +:+ "/Carte/Fenetres/camera.ashx?id=" +:+ id +:+ "&format=m3u8");
    v_html := withSalt salt fen;
  |}.

(** The four URLs of a variant set. *)
Definition derived_urls (v : Variants) : list string :=
  [v_snap v; v_jpg v; v_m3u8 v; v_html v].

End variants.

(** ** Filtering ([App]) *)

Section filtering.
Context `{Platform}.

(** The haystack of a camera: its names, route, region, bridge and border
    joined by spaces, lower-cased. *)
Definition hay (c : CameraRecord) : string :=
  toLowerCase (nameEn c +:+ " " +:+ nameFr c +:+ " " +:+ route c +:+ " " +:+
               region c +:+ " " +:+ bridge c +:+ " " +:+ border c).

(** The predicate of the [filter] call. *)
Definition keep (region_ q : string) (c : CameraRecord) : bool :=
  let inRegion := negb (Js.truthy_str region_) || bool_decide (region c = region_) in
  let match_ := negb (Js.truthy_str q) || Js.includes q (hay c) in
  inRegion && match_ && Js.truthy_str (url c).

(** The playable list [filtered] of [App]. *)
Definition filtered (cameras : list CameraRecord) (region_ query : string)
  : list CameraRecord :=
  let q := toLowerCase (trim query) in
  List.filter (keep region_ q) cameras.

End filtering.

(** ** A small implementation of the platform

    Enough of a browser to evaluate the definitions: absolute [http(s)]
    URLs with a plain query string (no escapes), ASCII white space and
    letters, and comma-separated text without quoting. *)

Module Browser.

(** The pieces of [s] between occurrences of [sep]. *)
Fixpoint split_on (sep : ascii) (s : string) : list string :=
  match s with
  | "" => [""]
  | String c rest =>
      if Ascii.eqb c sep then "" :: split_on sep rest
      else match split_on sep rest with
           | [] => [String c ""]
           | w :: ws => String c w :: ws
           end
  end.

(** [s] up to the first [sep], and what follows it. *)
Fixpoint cut (sep : ascii) (s : string) : string * option string :=
  match s with
  | "" => ("", None)
  | String c rest =>
      if Ascii.eqb c sep then ("", Some rest)
      else let '(a, b) := cut sep rest in (String c a, b)
  end.

Record location := { search : string }.

Definition strip_prefix (p s : string) : option string :=
  if String.prefix p s
  then Some (String.substring (String.length p) (String.length s - String.length p) s)
  else None.

Definition after_scheme (s : string) : option string :=
  match strip_prefix "https://" s with
  | Some r => Some r
  | None => strip_prefix "http://" s
  end.

Definition url_new (s : string) : option location :=
  match after_scheme s with
  | Some (String c rest) =>
      if Ascii.eqb c "/" || Ascii.eqb c "?" || Ascii.eqb c "#" then None
      else
        let no_fragment := (cut "#" (String c rest)).1 in
        Some {| search := default "" (cut "?" no_fragment).2 |}
  | _ => None
  end.

Definition pair_of (kv : string) : string * string :=
  let '(k, v) := cut "=" kv in (k, default "" v).

Definition search_get (u : location) (name : string) : option string :=
  snd <$> List.find (λ kv, String.eqb (fst kv) name)
            (pair_of <$> List.filter (λ kv, Js.truthy_str kv) (split_on "&" (search u))).

Fixpoint ltrim (s : string) : string :=
  match s with
  | String c rest => if Ascii.is_space c then ltrim rest else s
  | "" => ""
  end.

Definition trim_ascii (s : string) : string :=
  String.rev (ltrim (String.rev (ltrim s))).

Definition lower (c : ascii) : ascii :=
  let n := Ascii.nat_of_ascii c in
  if (65 <=? n) && (n <=? 90) then Ascii.ascii_of_nat (n + 32) else c.

Fixpoint lower_ascii (s : string) : string :=
  match s with
  | "" => ""
  | String c rest => String (lower c) (lower_ascii rest)
  end.

Definition newline : ascii := Ascii.ascii_of_nat 10.

Definition csv_rows (text : string) (cfg : PapaConfig) : list (gmap string string) :=
  let lines := split_on newline text in
  let lines := if skipEmptyLines cfg then List.filter Js.truthy_str lines else lines in
  match lines with
  | [] => []
  | head :: rows =>
      if header cfg
      then (λ row, list_to_map (zip (split_on "," head) (split_on "," row))) <$> rows
      else []
  end.

#[export] Instance browser : Platform := {|
  ORIGIN := "https://www.quebec511.info";
  URL := location;
  URL_new := url_new;
  searchParams_get := search_get;
  URL_new_empty := eq_refl;
  trim := trim_ascii;
  toLowerCase := lower_ascii;
  Papa_parse := csv_rows;
|}.

End Browser.

(** ** Playback state ([MediaPane]) *)

Inductive Mode := hls | snap | jpg.

#[global] Instance Mode_eq_dec : EqDecision Mode.
Proof. solve_decision. Defined.

Record TimeInfo := { source : string; date : option Z }.

(** The hooks of [MediaPane] that drive playback: the four state cells and
    the [variants] memo, kept as the camera record it was last computed
    from (with the counter it was computed at, that record determines the
    memoised value). *)
Record PlaybackState := {
  mode : Mode;
  salt : nat;
  dead : bool;
  timeInfo : TimeInfo;
  memo : option CameraRecord;
}.

(** The properties [Slideshow] passes to [MediaPane]. *)
Record Props := {
  camera : option CameraRecord;
  live : bool;
  refreshMs : Z;
  restartSec : Z;
}.

Inductive Status := LIVE | SNAPSHOT | UNAVAILABLE.

Module MediaPane.

Definition set_mode (m : Mode) (s : PlaybackState) : PlaybackState :=
  {| mode := m; salt := salt s; dead := dead s; timeInfo := timeInfo s;
     memo := memo s |}.
Definition set_salt (n : nat) (s : PlaybackState) : PlaybackState :=
  {| mode := mode s; salt := n; dead := dead s; timeInfo := timeInfo s;
     memo := memo s |}.
Definition set_dead (d : bool) (s : PlaybackState) : PlaybackState :=
  {| mode := mode s; salt := salt s; dead := d; timeInfo := timeInfo s;
     memo := memo s |}.
Definition set_timeInfo (t : TimeInfo) (s : PlaybackState) : PlaybackState :=
  {| mode := mode s; salt := salt s; dead := dead s; timeInfo := t;
     memo := memo s |}.
Definition set_memo (c : option CameraRecord) (s : PlaybackState) : PlaybackState :=
  {| mode := mode s; salt := salt s; dead := dead s; timeInfo := timeInfo s;
     memo := c |}.

(** [live ? "hls" : "snap"] *)
Definition initial_mode (live_ : bool) : Mode := if live_ then hls else snap.

(** The hooks after the first render of a pane mounted with [camera_]: the
    initial values of the state cells, and the memo computed from that
    camera. *)
Definition initial (camera_ : option CameraRecord) (live_ : bool) : PlaybackState :=
  {| mode := initial_mode live_; salt := 0; dead := false;
     timeInfo := {| source := ""; date := None |};
     memo := camera_ |}.

(** The body of the reset effect. *)
Definition reset (camera_ : option CameraRecord) (live_ : bool) (s : PlaybackState)
  : PlaybackState :=
  match camera_ with
  | None => s
  | Some _ =>
      set_dead false (set_salt 0
        (set_timeInfo {| source := ""; date := None |}
           (set_mode (initial_mode live_) s)))
  end.

(** The dependencies [camera?.id, live] of the reset effect differ between
    two renders. *)
Definition reset_deps_changed (p p' : Props) : bool :=
  negb (bool_decide (id <$> camera p = id <$> camera p')) ||
  negb (bool_decide (live p = live p')).

(** A render with new properties: the reset effect runs when one of its
    dependencies changed. *)
Definition rerender (p p' : Props) (s : PlaybackState) : PlaybackState :=
  if reset_deps_changed p p' then reset (camera p') (live p') s else s.

Definition snapshot_mode (m : Mode) : bool :=
  match m with
  | snap | jpg => true
  | hls => false
  end.

(** The delay handed to [setInterval] by the snapshot refresh effect;
    [None] when the effect installs no timer. *)
Definition refreshInterval (p : Props) (s : PlaybackState) : option Z :=
  if dead s then None
  else if negb (snapshot_mode (mode s)) then None
  else Some (Z.max 500 (refreshMs p)).

(** The callback of both intervals on the counter: [setSalt((s) => s + 1)]. *)
Definition bumpSalt (s : PlaybackState) : PlaybackState :=
  set_salt (salt s + 1) s.

(** [onSnapError] *)
Definition onSnapError (s : PlaybackState) : PlaybackState :=
  if dead s then set_dead true s
  else if bool_decide (mode s = snap) then set_dead false (set_mode jpg s)
  else set_dead true s.

(** The handler of a stream error and of a failed attach:
    [if (!cancelled) { setMode("snap"); setDead(false); }] *)
Definition onHlsError (cancelled : bool) (s : PlaybackState) : PlaybackState :=
  if cancelled then s else set_dead false (set_mode snap s).

(** The delay of the live-edge interval, in milliseconds. *)
Definition liveInterval (p : Props) (s : PlaybackState) : option Z :=
  if negb (live p) || negb (bool_decide (mode s = hls)) || (restartSec p =? 0)%Z
  then None
  else Some (Z.max 2 (restartSec p) * 1000)%Z.

(** [setLoadedNow], at local time [now]. *)
Definition setLoadedNow (now : Z) (s : PlaybackState) : PlaybackState :=
  match date (timeInfo s) with
  | None => set_timeInfo {| source := "Local"; date := Some now |} s
  | Some _ => s
  end.

(** What is rendered. *)
Definition shows_video (p : Props) (s : PlaybackState) : bool :=
  live p && bool_decide (mode s = hls).
Definition shows_img (p : Props) (s : PlaybackState) : bool :=
  negb (live p) && negb (dead s) && snapshot_mode (mode s).

(** The status badge. *)
Definition status (p : Props) (s : PlaybackState) : Status :=
  if live p && bool_decide (mode s = hls) then LIVE
  else if dead s then UNAVAILABLE else SNAPSHOT.

Section machine.
Context `{Platform}.

(** [variants], the memoised [buildVariants(camera, salt)]: its value is
    that of the record the memo was last computed from, at the current
    counter ([memoise] below recomputes it whenever the counter changes). *)
Definition variants (p : Props) (s : PlaybackState) : option Variants :=
  buildVariants (memo s) (salt s).

(** The [src] of the image element. *)
Definition img_src (p : Props) (s : PlaybackState) : option string :=
  v ← variants p s;
  Some (if bool_decide (mode s = snap) then v_snap v else v_jpg v).

(** The guard of [attach]: a stream is attached, and its error handler
    installed, only then. (The video element the guard also asks for is
    rendered under the same two conditions on [live] and [mode].) *)
Definition attaches (p : Props) (s : PlaybackState) : bool :=
  live p && bool_decide (mode s = hls) &&
  match variants p s with
  | Some v => Js.truthy_str (v_m3u8 v)
  | None => false
  end.

(** What can happen to a mounted pane. *)
Inductive Event :=
  | ImgError
  | ImgLoad (now : Z)
  | RefreshTick
  | StreamError
  | LiveTick
  | Render (p' : Props).

(** An event can occur only while its source (element, timer, stream)
    exists. *)
Definition enabled (p : Props) (s : PlaybackState) (e : Event) : bool :=
  match e with
  | ImgError | ImgLoad _ => shows_img p s
  | RefreshTick => bool_decide (is_Some (refreshInterval p s))
  | StreamError => attaches p s
  | LiveTick => bool_decide (is_Some (liveInterval p s))
  | Render _ => true
  end.

(** What the handler of an event, or the reset effect of a render, does to
    the properties and the state cells. *)
Definition handle (p : Props) (s : PlaybackState) (e : Event) : Props * PlaybackState :=
  match e with
  | ImgError => (p, onSnapError s)
  | ImgLoad now => (p, setLoadedNow now s)
  | RefreshTick => (p, bumpSalt s)
  | StreamError => (p, onHlsError false s)
  | LiveTick => (p, bumpSalt s)
  | Render p' => (p', rerender p p' s)
  end.

(** The memo dependencies [camera?.id, salt]: from properties [p] and state
    [s] to [p'] and [s'], the memo is recomputed from the camera of [p']
    when the camera id or the counter changed, and kept otherwise. *)
Definition memoise (p p' : Props) (s s' : PlaybackState) : PlaybackState :=
  if bool_decide (id <$> camera p' = id <$> camera p) && bool_decide (salt s' = salt s)
  then s'
  else set_memo (camera p') s'.

(** An event and the renders that follow it. *)
Definition step (p : Props) (s : PlaybackState) (e : Event) : Props * PlaybackState :=
  let '(p', s') := handle p s e in (p', memoise p p' s s').

End machine.

End MediaPane.

(** ** Shuffling ([useShuffle]) *)

Module Shuffle.

(** An array slot holds an element or [undefined]. *)
Abbreviation JsArray A := (list (option A)).

Section array.
Context {A : Type}.

(** [arr[i]]: a read out of range is [undefined]. *)
Definition get (arr : JsArray A) (i : nat) : option A :=
  mjoin (arr !! i).

(** [arr[i] = v]: a write past the end extends the array. *)
Definition set (arr : JsArray A) (i : nat) (v : option A) : JsArray A :=
  if decide (i < length arr) then <[i:=v]> arr
  else arr ++ replicate (i - length arr) None ++ [v].

(** [[arr[i], arr[j]] = [arr[j], arr[i]]]: both reads come first, then
    the write to [i], then the write to [j]. *)
Definition swap (arr : JsArray A) (i j : nat) : JsArray A :=
  let vj := get arr j in
  let vi := get arr i in
  set (set arr i vj) j vi.

(** [Math.floor(r * (i + 1))] for the [k]-th random number [r]. The product
    is taken exactly, where the code rounds it to a double; the statements
    below rely on the index lying between 0 and [i], never on which random
    number gives which index. *)
Definition pick (random : nat → Q) (k i : nat) : Z :=
  Qfloor (random k * inject_Z (Z.of_nat (i + 1))).

(** The loop [for (let i = arr.length - 1; i > 0; i--)], entered at [i]
    with [k] random numbers already drawn. *)
Fixpoint loop (random : nat → Q) (k i : nat) (arr : JsArray A) : JsArray A :=
  match i with
  | 0 => arr
  | S i' => loop random (S k) i' (swap arr i (Z.to_nat (pick random k i)))
  end.

(** The same loop with the index [j] of the round at [i] given as [js i]
    instead of drawn. *)
Fixpoint loop_by (js : nat → nat) (i : nat) (arr : JsArray A) : JsArray A :=
  match i with
  | 0 => arr
  | S i' => loop_by js i' (swap arr i (js i))
  end.

(** [useShuffle(list, enabled)], where [random k] is the result of the
    [k]-th call of [Math.random]. *)
Definition useShuffle (random : nat → Q) (list_ : list A) (enabled : bool) : JsArray A :=
  if negb enabled then Some <$> list_
  else
    let arr := Some <$> list_ in
    loop random 0 (length arr - 1) arr.

End array.

(** [Math.random] returns numbers of the interval [0, 1). *)
Definition unit_interval (random : nat → Q) : Prop :=
  ∀ k, (0 <= random k)%Q ∧ (random k < 1)%Q.

End Shuffle.

(** ** The slideshow index ([Slideshow]) *)

Module Slideshow.
Section index.
Context {A : Type}.

(** [Math.max(list.length, 1)] *)
Definition modulus (list_ : list A) : Z := Z.max (Z.of_nat (length list_)) 1.

(** [list[index % Math.max(list.length, 1)]] *)
Definition current (list_ : list A) (index : Z) : option A :=
  let i := Z.rem index (modulus list_) in
  if (i <? 0)%Z then None else list_ !! Z.to_nat i.

(** What the body of the advance effect hands to [setTimeout] when it
    runs, in milliseconds; [None] when it returns without starting a timer.
    When the effect runs, and how long a started timer lives, is the matter
    of [Autoplay] below. *)
Definition dwellTimeout (playing : bool) (cur : option A) (dwellSec : Z) : option Z :=
  if negb playing || negb (bool_decide (is_Some cur)) then None
  else Some (Z.max 3 dwellSec * 1000)%Z.

(** [next] and [prev] as functions of the index. *)
Definition next (list_ : list A) (i : Z) : Z :=
  Z.rem (i + 1) (modulus list_).
Definition prev (list_ : list A) (i : Z) : Z :=
  Z.rem (i - 1 + modulus list_) (modulus list_).

End index.
End Slideshow.

(** ** The advance timer ([Slideshow]) *)

Module Autoplay.

(** What [Slideshow] is rendered with: the list [useShuffle] returned and
    the dwell time. *)
Record View := { shown : list CameraRecord; dwellSec : Z }.

(** A pending [setTimeout] of the advance effect: its delay, and the list
    of the render that started it. The callback calls the [next] of that
    render, which reads that render's [list]. *)
Record Timer := { delay : Z; armed_on : list CameraRecord }.

(** The state cells [index] and [playing], and the pending timer if there
    is one. *)
Record State := { index : Z; playing : bool; timer : option Timer }.

Definition set_index (i : Z) (st : State) : State :=
  {| index := i; playing := playing st; timer := timer st |}.
Definition set_playing (b : bool) (st : State) : State :=
  {| index := index st; playing := b; timer := timer st |}.
Definition set_timer (t : option Timer) (st : State) : State :=
  {| index := index st; playing := playing st; timer := t |}.

(** The dependencies [playing, index, dwellSec, current?.id] of the advance
    effect. *)
Definition deps (v : View) (st : State) : bool * Z * Z * option string :=
  (playing st, index st, dwellSec v,
   id <$> Slideshow.current (shown v) (index st)).

(** The body of the advance effect: the timer it starts, if any. *)
Definition arm (v : View) (st : State) : option Timer :=
  d ← Slideshow.dwellTimeout (playing st)
         (Slideshow.current (shown v) (index st)) (dwellSec v);
  Some {| delay := d; armed_on := shown v |}.

(** The advance effect after a render: when one of its dependencies
    changed, the cleanup clears the pending timer and the body runs again;
    otherwise nothing happens and a pending timer stays as it is. *)
Definition settle (v v' : View) (st st' : State) : State :=
  if decide (deps v' st' = deps v st) then st' else set_timer (arm v' st') st'.

(** The effect [setIndex(0)] with the dependency [list.length]. *)
Definition relist (v v' : View) (st : State) : State :=
  if decide (length (shown v') = length (shown v)) then st else set_index 0 st.

(** What can happen to a mounted slideshow: the pending timer fires, a
    button is pressed, or the parent renders it with another list or dwell
    time. *)
Inductive Event :=
  | Fire
  | ClickNext
  | ClickPrev
  | TogglePlay
  | Show (v' : View).

(** A timer can fire only while it is pending. *)
Definition enabled (st : State) (e : Event) : bool :=
  match e with
  | Fire => bool_decide (is_Some (timer st))
  | _ => true
  end.

(** The state update of an event. A fired timer is spent; the buttons call
    the [next] and [prev] of the current render. *)
Definition handle (v : View) (st : State) (e : Event) : View * State :=
  match e with
  | Fire =>
      match timer st with
      | Some t =>
          (v, set_timer None (set_index (Slideshow.next (armed_on t) (index st)) st))
      | None => (v, st)
      end
  | ClickNext => (v, set_index (Slideshow.next (shown v) (index st)) st)
  | ClickPrev => (v, set_index (Slideshow.prev (shown v) (index st)) st)
  | TogglePlay => (v, set_playing (negb (playing st)) st)
  | Show v' => (v', relist v v' st)
  end.

(** An event and the renders that follow it. *)
Definition step (v : View) (st : State) (e : Event) : View * State :=
  let '(v', st') := handle v st e in (v', settle v v' st st').

(** The first render: [useState(0)], [useState(autoplay)], and the advance
    effect run once. *)
Definition mount (v : View) (autoplay : bool) : State :=
  let st := {| index := 0; playing := autoplay; timer := None |} in
  set_timer (arm v st) st.

(** The states a mounted slideshow can be in. *)
Inductive reachable : View → State → Prop :=
  | reach_mount v autoplay : reachable v (mount v autoplay)
  | reach_step v st e v' st' :
      reachable v st → enabled st e = true → step v st e = (v', st') →
      reachable v' st'.

End Autoplay.

(** ** Feed loader ([useCameras]) *)

Inductive Endpoint := geojson | csv.

(** A feature of the structured feed: [f.properties] and
    [f.geometry?.coordinates], either of which may be missing. *)
Record Feature := {
  properties : option (gmap string JsVal);
  coordinates : option (list Q);
}.

Record GeoJson := { features : option (list Feature) }.

(** A response; [body] is what reading it ([json()] or [text()]) gives,
    [None] when that read rejects (for [json()]: a body that does not
    parse). *)
Record Response (B : Type) := { ok : bool; http_status : Z; body : option B }.
Arguments ok {B} _.
Arguments http_status {B} _.
Arguments body {B} _.

(** The outcome of a [fetch]: a rejected promise (network error) or a
    response. *)
Inductive Fetched (B : Type) :=
  | Rejected
  | Resolved (r : Response B).
Arguments Rejected {B}.
Arguments Resolved {B} _.

(** What the two endpoints answer during one load. *)
Record Network := {
  answer_geojson : Fetched GeoJson;
  answer_csv : Fetched string;
}.

(** The state hooks of [useCameras]. *)
Record CamerasState := {
  cameras : list CameraRecord;
  regions : list string;
  loading : bool;
  error : string;
}.

(** An asynchronous computation that may throw: the requests it sent, in
    order, and its result ([None] when it threw). *)
Definition Async (A : Type) : Type := list Endpoint * option A.

Module Async.
Definition ret {A} (a : A) : Async A := ([], Some a).
Definition throw {A} : Async A := ([], None).
Definition bind {A B} (m : Async A) (f : A → Async B) : Async B :=
  match m with
  | (sent, Some a) => let '(sent', r) := f a in (sent ++ sent', r)
  | (sent, None) => (sent, None)
  end.
(** Lift a step that throws on [None]. *)
Definition lift {A} (o : option A) : Async A := ([], o).
End Async.

Notation "x ←' m ; k" := (Async.bind m (λ x, k))
  (at level 20, m at level 100, k at level 200, only parsing, right associativity).

Module Feed.

(** [Array.from(new Set(l))]: the distinct values in order of first
    occurrence. *)
Definition Set_from (l : list string) : list string :=
  foldl (λ acc x, if decide (x ∈ acc) then acc else acc ++ [x]) [] l.

(** [l.sort()] on strings. *)
Definition sort (l : list string) : list string := merge_sort String.le l.

(** [Array.from(new Set(items.map((c) => c.region))).sort()] *)
Definition regions_of (items : list CameraRecord) : list string :=
  sort (Set_from (region <$> items)).

(** [await fetch(endpoint)] *)
Definition fetch {B} (e : Endpoint) (answer : Fetched B) : Async (Response B) :=
  ([e], match answer with
        | Rejected => None
        | Resolved r => Some r
        end).

Definition error_message : string :=
  "Failed to load cameras (maybe CORS). Try a dev proxy or build-time fetch.".

(** The initial values of the state hooks. *)
Definition initial : CamerasState :=
  {| cameras := []; regions := []; loading := true; error := "" |}.

(** The hooks after a failed load that started from [st]. *)
Definition failed (st : CamerasState) : CamerasState :=
  {| cameras := cameras st; regions := regions st;
     loading := false; error := error_message |}.

Section load.
Context `{Platform}.

(** The callback mapped over [gj.features]. *)
Definition feature_camera (f : Feature) : option CameraRecord :=
  let p := default ∅ (properties f) in
  let coords := default [] (coordinates f) in
  normalizeCamera {| props := p;
                     r_lat := CNum <$> coords !! 1;
                     r_lon := CNum <$> coords !! 0 |}.

(** [normalizeCamera(row)] for a parsed CSV row. *)
Definition row_camera (row : gmap string string) : option CameraRecord :=
  normalizeCamera {| props := VStr <$> row;
                     r_lat := CStr <$> row !! "lat";
                     r_lon := CStr <$> row !! "lon" |}.

(** The [try] block of [load]: the camera list it arrives at. *)
Definition try_load (net : Network) : Async (list CameraRecord) :=
  gjRes ←' fetch geojson (answer_geojson net);
  if ok gjRes then
    gj ←' Async.lift (body gjRes);
    Async.lift (mapM feature_camera (default [] (features gj)))
  else
    res ←' fetch csv (answer_csv net);
    if negb (ok res) then Async.throw
    else
      text ←' Async.lift (body res);
      let parsed := Papa_parse text {| header := true; skipEmptyLines := true |} in
      Async.lift (mapM row_camera parsed).

(** [load()], with the value [cancelled] has when the requests settle:
    the requests sent and the state of the hooks afterwards. *)
Definition load (net : Network) (cancelled : bool) (st : CamerasState)
  : list Endpoint * CamerasState :=
  let st0 := {| cameras := cameras st; regions := regions st;
                loading := true; error := "" |} in
  let '(sent, r) := try_load net in
  (sent,
   if cancelled then st0
   else match r with
        | Some items =>
            {| cameras := items; regions := regions_of items;
               loading := false; error := error st0 |}
        | None =>
            {| cameras := cameras st0; regions := regions st0;
               loading := false; error := error_message |}
        end).

End load.
End Feed.

(** ** The relative load time ([rel] of [MediaPane]) *)

Module Clock.

(** [Math.round(diff / 1000)] for a whole, non-negative number of
    milliseconds: halves round up. *)
Definition round_seconds (diff : Z) : Z := ((diff + 500) / 1000)%Z.

(** [rel]: the text beside the load time, at time [now]. *)
Definition rel (now : Z) (t : TimeInfo) : string :=
  match date t with
  | None => ""
  | Some d =>
      let diff := Z.max 0 (now - d) in
      let s := round_seconds diff in
      if (s <? 60)%Z then Js.string_of_Z s +:+ "s ago"
      else
        let m := (s / 60)%Z in
        if (m <? 60)%Z then Js.string_of_Z m +:+ "m ago"
        else Js.string_of_Z (m / 60)%Z +:+ "h ago"
  end.

End Clock.

(** ** Runs of a mounted pane *)

Module Run.
Section run.
Context `{Platform}.

(** The pairs of properties and state a pane can be in: it is mounted with
    a camera, and every later render still has one ([Slideshow] renders the
    pane only for a current camera). *)
Inductive reachable : Props → PlaybackState → Prop :=
  | reach_mount p :
      is_Some (camera p) → reachable p (MediaPane.initial (camera p) (live p))
  | reach_step p s e p' s' :
      reachable p s →
      MediaPane.enabled p s e = true →
      (∀ q, e = MediaPane.Render q → is_Some (camera q)) →
      MediaPane.step p s e = (p', s') →
      reachable p' s'.

(** The "unavailable" panel is rendered whenever [dead] is set. *)
Definition shows_panel (s : PlaybackState) : bool := dead s.

(** The pane after a sequence of events. *)
Fixpoint exec (p : Props) (s : PlaybackState) (es : list MediaPane.Event)
  : Props * PlaybackState :=
  match es with
  | [] => (p, s)
  | e :: es' => let '(p', s') := MediaPane.step p s e in exec p' s' es'
  end.

End run.
End Run.

(** ** The deployment base and the development proxy *)

Module Proxy.

Definition upstream : string := "https://www.quebec511.info".

(** [s.endsWith(suffix)] *)
Definition endsWith (suffix s : string) : bool :=
  (String.length suffix <=? String.length s) &&
  String.eqb
    (String.substring (String.length s - String.length suffix)
                      (String.length suffix) s)
    suffix.

(** The module constant [ORIGIN]: the build-time override when set, else
    the proxy prefix on a local host name, else the upstream site.
    [hostname] is [None] outside a browser. *)
Definition origin (VITE_Q511_BASE hostname : option string) : string :=
  let by_host :=
    match hostname with
    | Some h =>
        if String.eqb h "localhost" || endsWith ".local" h then "/q511"
        else upstream
    | None => upstream
    end in
  match VITE_Q511_BASE with
  | Some b => if Js.truthy_str b then b else by_host
  | None => by_host
  end.

(** [s] without the leading [p], when it starts with [p]. *)
Fixpoint drop_prefix (p s : string) : option string :=
  match p with
  | "" => Some s
  | String a p' =>
      match s with
      | String b s' => if Ascii.eqb a b then drop_prefix p' s' else None
      | "" => None
      end
  end.

(** [rewrite: (p) => p.replace(/^\/q511/, '')] *)
Definition rewrite (p : string) : string :=
  default p (drop_prefix "/q511" p).

(** Where the development server sends a request path: the first of the
    three proxied prefixes the path starts with decides; other paths are
    served locally ([None]). *)
Definition forward (path : string) : option string :=
  if String.prefix "/q511" path then Some (upstream +:+ rewrite path)
  else if String.prefix "/Carte" path then Some (upstream +:+ path)
  else if String.prefix "/Images" path then Some (upstream +:+ path)
  else None.

(** The browser of the examples, on a local host. *)
Definition dev : Platform := {|
  ORIGIN := origin None (Some "localhost");
  URL := Browser.location;
  URL_new := Browser.url_new;
  searchParams_get := Browser.search_get;
  URL_new_empty := eq_refl;
  trim := Browser.trim_ascii;
  toLowerCase := Browser.lower_ascii;
  Papa_parse := Browser.csv_rows;
|}.

End Proxy.

(** ** Vocabulary of the statements *)

(** [u] ends with the text [suffix]. *)
Definition ends_with (suffix u : string) : Prop := ∃ front, u = front +:+ suffix.

(** The trailing cache-bust parameter for counter value [n]. *)
Definition salt_param (n : nat) : string := "_rs=" +:+ Js.string_of_nat n.

(** [u] is [base] with the cache-bust parameter for [n] appended after the
    separator the query string of [base] calls for. *)
Definition salted (n : nat) (base u : string) : Prop :=
  base ≠ "" ∧
  u = base +:+ (if Js.includes "?" base then "&" else "?") +:+ salt_param n.

(** Example inputs. *)
Module Samples.

Definition cam (id_ region_ url_ img : string) : CameraRecord :=
  {| id := id_; number := ""; nameFr := "Autoroute 50"; nameEn := "Highway 50";
     since := ""; route := "50"; region := region_; border := ""; bridge := "";
     url := url_; imgDirect := img; lat := None; lon := None |}.

Definition cam42 : CameraRecord :=
  cam "3042" "Outaouais"
      "https://www.quebec511.info/Carte/Fenetres/camera.ashx?id=42" "".

Definition cam7_direct : CameraRecord :=
  cam "3007" "Outaouais"
      "https://www.quebec511.info/Carte/Fenetres/camera.ashx?id=7"
      "https://cdn.example.org/cam/7.jpg?size=large".

(** A record whose viewer address carries no [id] parameter. *)
Definition cam_noid : CameraRecord :=
  cam "3050" "Outaouais"
      "https://www.quebec511.info/Carte/Fenetres/camera.ashx" "".

Definition pane (c : CameraRecord) (live_ : bool) : Props :=
  {| camera := Some c; live := live_; refreshMs := 1500; restartSec := 5 |}.

Definition viewer (query : string) : string :=
  "https://www.quebec511.info/Carte/Fenetres/camera.ashx" +:+ query.

Definition feature (number_ : Z) (region_ : option string) (url_ : string) : Feature :=
  {| properties := Some (list_to_map
       (("IDEcamera", VNum number_) ::
        ("DescriptionLocalisationEn", VStr "Highway 50 ") ::
        ("URL_FLUX_DONNEE", VStr url_) ::
        match region_ with
        | Some r => [("NomRegionDiffusion", VStr r)]
        | None => []
        end));
     coordinates := Some [(-75 # 1)%Q; (45 # 1)%Q] |}.

(** A structured feed of three cameras: one complete, one whose viewer
    address has no [id] parameter, one without a region. *)
Definition feed : GeoJson :=
  {| features := Some [feature 3042 (Some "Outaouais") (viewer "?id=42");
                       feature 3050 (Some "Outaouais") (viewer "");
                       feature 3007 None (viewer "?id=7")] |}.

Definition nl : string := String Browser.newline "".

(** The same cameras as delimited text, with a blank row. *)
Definition feed_text : string :=
  "IDEcamera,NomRegionDiffusion,URL_FLUX_DONNEE" +:+ nl +:+
  "3042,Outaouais," +:+ viewer "?id=42" +:+ nl +:+
  nl +:+
  "3007,Estrie," +:+ viewer "?id=7".

Definition csv_up : Fetched string :=
  Resolved {| ok := true; http_status := 200; body := Some feed_text |}.

(** Both endpoints answer. *)
Definition net_up : Network :=
  {| answer_geojson := Resolved {| ok := true; http_status := 200; body := Some feed |};
     answer_csv := csv_up |}.

(** The structured endpoint answers 503. *)
Definition net_503 : Network :=
  {| answer_geojson := Resolved {| ok := false; http_status := 503; body := None |};
     answer_csv := csv_up |}.

(** The request to the structured endpoint is rejected. *)
Definition net_down : Network :=
  {| answer_geojson := Rejected; answer_csv := csv_up |}.

(** The structured endpoint answers 200 with a body that is not JSON. *)
Definition net_malformed : Network :=
  {| answer_geojson := Resolved {| ok := true; http_status := 200; body := None |};
     answer_csv := csv_up |}.

(** A feature without any of the id properties. *)
Definition anon_feature (url_ : string) : Feature :=
  {| properties := Some (list_to_map
       [("NomRegionDiffusion", VStr "Outaouais"); ("URL_FLUX_DONNEE", VStr url_)]);
     coordinates := None |}.

(** A structured feed of two cameras that carry no id property. *)
Definition net_anon : Network :=
  {| answer_geojson :=
       Resolved {| ok := true; http_status := 200;
                   body := Some {| features :=
                     Some [anon_feature (viewer "?id=42");
                           anon_feature (viewer "?id=7")] |} |};
     answer_csv := csv_up |}.

End Samples.

(** ** Strings *)

Lemma truthy_str_true s : Js.truthy_str s = true ↔ s ≠ "".
Proof. destruct s; simpl; split; congruence. Qed.

Lemma truthy_str_false s : Js.truthy_str s = false ↔ s = "".
Proof. destruct s; simpl; split; congruence. Qed.

Lemma append_cons x (a b : string) : String x a +:+ b = String x (a +:+ b).
Proof. reflexivity. Qed.

Lemma append_nil_l (b : string) : "" +:+ b = b.
Proof. reflexivity. Qed.

Lemma append_assoc (a b c : string) : (a +:+ b) +:+ c = a +:+ b +:+ c.
Proof.
  induction a as [|x a IH]; [done|].
  rewrite !append_cons. by f_equal.
Qed.

Lemma append_nonempty_l (a b : string) : a ≠ "" → a +:+ b ≠ "".
Proof. destruct a; [done|]. by rewrite append_cons. Qed.

Lemma append_nonempty_r (a b : string) : b ≠ "" → a +:+ b ≠ "".
Proof.
  intros Hb. destruct a; [by rewrite append_nil_l|]. by rewrite append_cons.
Qed.

Lemma prefix_empty (s : string) : String.prefix "" s = true.
Proof. by destruct s. Qed.

(** A one-character needle occurs in a concatenation exactly when it occurs
    in one of the two parts. *)
Lemma includes_char_app (c : ascii) (a b : string) :
  Js.includes (String c "") (a +:+ b)
  = Js.includes (String c "") a || Js.includes (String c "") b.
Proof.
  induction a as [|x a IH].
  - rewrite append_nil_l. reflexivity.
  - rewrite append_cons. cbn [Js.includes String.prefix]. rewrite IH.
    destruct (ascii_dec c x); [by rewrite !prefix_empty|done].
Qed.

Lemma withSalt_salted n u : u ≠ "" → salted n u (withSalt n u).
Proof.
  intros Hu. split; [done|]. unfold withSalt, salt_param.
  apply truthy_str_true in Hu. by rewrite Hu.
Qed.

Lemma salted_ends_with n base u : salted n base u → ends_with (salt_param n) u.
Proof.
  intros [_ ->]. exists (base +:+ (if Js.includes "?" base then "&" else "?")).
  symmetry. apply append_assoc.
Qed.

(** ** Media URLs *)

Section variants_facts.
Context `{Platform}.

Lemma extractId_url_nonempty u : extractIdFromFenetre u ≠ "" → u ≠ "".
Proof.
  intros Hid ->. apply Hid. unfold extractIdFromFenetre.
  by rewrite URL_new_empty.
Qed.

(** What [buildVariants] returns when it returns a variant set. *)
Lemma buildVariants_Some camera_ n v :
  buildVariants camera_ n = Some v →
  ∃ c, camera_ = Some c ∧ extractIdFromFenetre (url c) ≠ "" ∧ url c ≠ "" ∧
       v = {| v_id := extractIdFromFenetre (url c);
              v_snap := withSalt n (primarySnap (Some c) (extractIdFromFenetre (url c)));
              v_jpg := withSalt n (ORIGIN +:+ "/Carte/Fenetres/camera.ashx?id=" +:+
                                    extractIdFromFenetre (url c) +:+ "&format=jpg");
              v_m3u8 := withSalt n (ORIGIN +:+ "/Carte/Fenetres/camera.ashx?id=" +:+
                                     extractIdFromFenetre (url c) +:+ "&format=m3u8");
              v_html := withSalt n (url c) |}.
Proof.
  unfold buildVariants. destruct camera_ as [c|].
  - destruct (Js.truthy_str (url c)) eqn:Hu.
    + destruct (Js.truthy_str (extractIdFromFenetre (url c))) eqn:Hid; simpl; [|done].
      intros [= <-]. exists c. apply truthy_str_true in Hid, Hu. done.
    + apply truthy_str_false in Hu.
      assert (extractIdFromFenetre "" = "") as ->.
      { unfold extractIdFromFenetre. by rewrite URL_new_empty. }
      done.
  - assert (extractIdFromFenetre "" = "") as ->.
    { unfold extractIdFromFenetre. by rewrite URL_new_empty. }
    done.
Qed.

Lemma buildVariants_id c n :
  extractIdFromFenetre (url c) ≠ "" → is_Some (buildVariants (Some c) n).
Proof.
  intros Hid. unfold buildVariants.
  pose proof (extractId_url_nonempty _ Hid) as Hu.
  apply truthy_str_true in Hu, Hid. rewrite Hu, Hid. simpl. eauto.
Qed.

Lemma primarySnap_nonempty camera_ i : primarySnap camera_ i ≠ "".
Proof.
  assert (ORIGIN +:+ "/Images/Cameras/Quebec/cam/" +:+ i +:+ ".jpg" ≠ "") as Hc.
  { by apply append_nonempty_r, append_nonempty_l. }
  unfold primarySnap. destruct camera_ as [c|]; [|done].
  destruct (Js.truthy_str (imgDirect c)) eqn:Hi; [|done].
  by apply truthy_str_true.
Qed.

Lemma endpoint_nonempty (i fmt : string) :
  ORIGIN +:+ "/Carte/Fenetres/camera.ashx?id=" +:+ i +:+ fmt ≠ "".
Proof. by apply append_nonempty_r, append_nonempty_l. Qed.

(** Every URL of a variant set is a non-empty base with the counter
    appended. *)
Lemma derived_urls_salted camera_ n v u :
  buildVariants camera_ n = Some v → u ∈ derived_urls v →
  ∃ base, salted n base u.
Proof.
  intros (c & -> & Hid & Hu & ->)%buildVariants_Some Hin.
  unfold derived_urls in Hin; simpl in Hin.
  repeat (apply elem_of_cons in Hin as [-> | Hin]);
    [eexists; apply withSalt_salted ..|by apply elem_of_nil in Hin].
  - apply (primarySnap_nonempty (Some c)).
  - apply endpoint_nonempty.
  - apply endpoint_nonempty.
  - done.
Qed.

End variants_facts.

(** C2. For a camera whose viewer address yields an id, [buildVariants]
    returns a variant set at every counter value [n]. Without [imgDirect]
    the primary snapshot URL is the constructed path
    [ORIGIN/Images/Cameras/Quebec/cam/<id>.jpg] followed by the parameter
    [_rs=n]; with a non-empty [imgDirect] it is [imgDirect] followed by that
    parameter. Each of the four URLs is its base followed by ["?"] (or
    ["&"] when the base already has a query string) and [_rs=n], so each
    ends with [_rs=n]; for the constructed path the separator is ["?"] when
    neither [ORIGIN] nor the id contains one. The parameter reads [_rs=0]
    at 0 and [_rs=1] at 1. *)
Theorem snapshot_url_of_id `{Platform} (c : CameraRecord) (n : nat) :
  extractIdFromFenetre (url c) ≠ "" →
  ∃ v, buildVariants (Some c) n = Some v ∧
       v_id v = extractIdFromFenetre (url c) ∧
       (imgDirect c = "" →
        salted n (ORIGIN +:+ "/Images/Cameras/Quebec/cam/" +:+ v_id v +:+ ".jpg")
               (v_snap v)) ∧
       (imgDirect c = "" →
        Js.includes "?" ORIGIN = false → Js.includes "?" (v_id v) = false →
        v_snap v = ORIGIN +:+ "/Images/Cameras/Quebec/cam/" +:+ v_id v +:+
                   ".jpg" +:+ "?" +:+ salt_param n) ∧
       (imgDirect c ≠ "" → salted n (imgDirect c) (v_snap v)) ∧
       salted n (ORIGIN +:+ "/Carte/Fenetres/camera.ashx?id=" +:+ v_id v +:+ "&format=jpg")
              (v_jpg v) ∧
       salted n (ORIGIN +:+ "/Carte/Fenetres/camera.ashx?id=" +:+ v_id v +:+ "&format=m3u8")
              (v_m3u8 v) ∧
       salted n (url c) (v_html v) ∧
       Forall (ends_with (salt_param n)) (derived_urls v) ∧
       salt_param 0 = "_rs=0" ∧ salt_param 1 = "_rs=1".
Proof.
  intros Hid.
  destruct (buildVariants_id c n Hid) as [v Hv].
  exists v. split; [done|].
  pose proof Hv as (c' & [= <-] & _ & Hu & Hdef)%buildVariants_Some.
  assert (Forall (ends_with (salt_param n)) (derived_urls v)) as Hall.
  { apply Forall_forall. intros u Hin.
    destruct (derived_urls_salted _ _ _ _ Hv Hin) as [base Hb].
    by eapply salted_ends_with. }
  subst v. cbn [v_id v_snap v_jpg v_m3u8 v_html].
  split_and!; try done.
  - intros Himg. unfold primarySnap.
    apply truthy_str_false in Himg as ->.
    apply withSalt_salted. by apply append_nonempty_r, append_nonempty_l.
  - intros Himg Ho Hi. unfold primarySnap, withSalt.
    apply truthy_str_false in Himg as ->.
    rewrite (proj2 (truthy_str_true _))
      by (by apply append_nonempty_r, append_nonempty_l).
    rewrite !includes_char_app, Ho, Hi. simpl.
    by rewrite !append_assoc.
  - intros Himg. unfold primarySnap.
    pose proof Himg as ->%truthy_str_true.
    by apply withSalt_salted.
  - apply withSalt_salted, endpoint_nonempty.
  - apply withSalt_salted, endpoint_nonempty.
  - by apply withSalt_salted.
Qed.

(** ** Playback *)

Section playback_facts.
Context `{Platform}.
Import MediaPane.

Lemma status_unavailable p s :
  status p s = UNAVAILABLE ↔
  dead s = true ∧ (live p && bool_decide (mode s = hls)) = false.
Proof.
  unfold status. destruct (live p && bool_decide (mode s = hls)), (dead s);
    intuition congruence.
Qed.

(** In the unavailable state no element, timer or stream is left that could
    raise an event. *)
Lemma unavailable_disables p s e :
  status p s = UNAVAILABLE → enabled p s e = true → ∃ p', e = Render p'.
Proof.
  intros [Hd Hl]%status_unavailable. destruct e; simpl; eauto.
  - unfold shows_img. rewrite Hd. by rewrite andb_false_r.
  - unfold shows_img. rewrite Hd. by rewrite andb_false_r.
  - unfold refreshInterval. rewrite Hd. intros [? [=]]%bool_decide_eq_true.
  - unfold attaches. by rewrite Hl.
  - unfold liveInterval.
    destruct (live p), (bool_decide (mode s = hls)); simpl in *; try done;
      intros [? [=]]%bool_decide_eq_true.
Qed.

Lemma rerender_same_deps p p' s :
  reset_deps_changed p p' = false →
  rerender p p' s = s ∧ live p' = live p.
Proof.
  unfold rerender, reset_deps_changed. intros Hd. rewrite Hd. split; [done|].
  apply orb_false_iff in Hd as [_ Hl].
  apply negb_false_iff, bool_decide_eq_true in Hl. done.
Qed.

Lemma salt_onSnapError s : salt (onSnapError s) = salt s.
Proof.
  unfold onSnapError. destruct (dead s); [done|].
  by destruct (bool_decide (mode s = snap)).
Qed.

Lemma salt_setLoadedNow now s : salt (setLoadedNow now s) = salt s.
Proof. unfold setLoadedNow. by destruct (date (timeInfo s)). Qed.

(** A handler that leaves the counter alone leaves the memo alone. *)
Lemma memoise_keep p s s' : salt s' = salt s → memoise p p s s' = s'.
Proof.
  intros Hs. unfold memoise. by rewrite !bool_decide_eq_true_2.
Qed.

(** A tick recomputes the memo from the current camera. *)
Lemma memoise_bump p s :
  memoise p p s (bumpSalt s) = set_memo (camera p) (bumpSalt s).
Proof.
  unfold memoise. rewrite (bool_decide_eq_false_2 (salt (bumpSalt s) = salt s)).
  - by rewrite andb_false_r.
  - simpl. lia.
Qed.

(** Recomputing the memo touches no state cell. *)
Lemma memoise_cells p p' s s' :
  mode (memoise p p' s s') = mode s' ∧ salt (memoise p p' s s') = salt s' ∧
  dead (memoise p p' s s') = dead s' ∧
  timeInfo (memoise p p' s s') = timeInfo s'.
Proof. unfold memoise. by destruct (_ && _). Qed.

Lemma step_cells p s e :
  (step p s e).1 = (handle p s e).1 ∧
  mode (step p s e).2 = mode (handle p s e).2 ∧
  salt (step p s e).2 = salt (handle p s e).2 ∧
  dead (step p s e).2 = dead (handle p s e).2 ∧
  timeInfo (step p s e).2 = timeInfo (handle p s e).2.
Proof.
  unfold step. destruct (handle p s e) as [p' s']. simpl.
  split; [done|apply memoise_cells].
Qed.

Lemma step_props p s e : (∀ q, e ≠ Render q) → (step p s e).1 = p.
Proof.
  intros He. rewrite (proj1 (step_cells p s e)).
  destruct e as [|now| | | |q]; try done. by destruct (He q).
Qed.

Lemma step_ImgError p s : step p s ImgError = (p, onSnapError s).
Proof. unfold step. simpl. by rewrite memoise_keep by apply salt_onSnapError. Qed.

Lemma step_ImgLoad p s now : step p s (ImgLoad now) = (p, setLoadedNow now s).
Proof. unfold step. simpl. by rewrite memoise_keep by apply salt_setLoadedNow. Qed.

Lemma step_StreamError p s : step p s StreamError = (p, onHlsError false s).
Proof. unfold step. simpl. by rewrite memoise_keep. Qed.

Lemma step_RefreshTick p s :
  step p s RefreshTick = (p, set_memo (camera p) (bumpSalt s)).
Proof. unfold step. simpl handle. cbv iota beta. by rewrite memoise_bump. Qed.

Lemma step_LiveTick p s :
  step p s LiveTick = (p, set_memo (camera p) (bumpSalt s)).
Proof. unfold step. simpl handle. cbv iota beta. by rewrite memoise_bump. Qed.

(** A render that changes neither the camera id nor the live toggle changes
    nothing, the memo included. *)
Lemma step_Render_same p p' s :
  reset_deps_changed p p' = false →
  step p s (Render p') = (p', s) ∧ live p' = live p ∧
  id <$> camera p' = id <$> camera p.
Proof.
  intros Hd. destruct (rerender_same_deps p p' s Hd) as [Hr Hl].
  unfold reset_deps_changed in Hd. apply orb_false_iff in Hd as [Hid _].
  apply negb_false_iff, bool_decide_eq_true in Hid.
  unfold step. simpl. rewrite Hr. unfold memoise.
  by rewrite !bool_decide_eq_true_2.
Qed.

End playback_facts.

(** C1 (as amended). With live playback off, an image load failure in
    snapshot-primary moves the pane to snapshot-alternate, where the image is
    still shown; a second failure moves it to unavailable. In unavailable the
    only event that can occur is a render, and a render that changes neither
    the camera id nor the live toggle leaves the state as it is: the pane
    stays unavailable until the reset effect runs. *)
Theorem failures_lead_to_terminal `{Platform} (p : Props) (s : PlaybackState) :
  live p = false → mode s = snap → dead s = false →
  let s1 := MediaPane.onSnapError s in
  let s2 := MediaPane.onSnapError s1 in
  MediaPane.enabled p s MediaPane.ImgError = true ∧
  MediaPane.step p s MediaPane.ImgError = (p, s1) ∧
  mode s1 = jpg ∧ dead s1 = false ∧ MediaPane.status p s1 = SNAPSHOT ∧
  MediaPane.enabled p s1 MediaPane.ImgError = true ∧
  MediaPane.step p s1 MediaPane.ImgError = (p, s2) ∧
  MediaPane.status p s2 = UNAVAILABLE ∧
  ∀ q t e,
    MediaPane.status q t = UNAVAILABLE →
    MediaPane.enabled q t e = true →
    ∃ q', e = MediaPane.Render q' ∧
          (MediaPane.reset_deps_changed q q' = false →
           MediaPane.step q t e = (q', t) ∧ MediaPane.status q' t = UNAVAILABLE).
Proof.
  intros Hl Hm Hd s1 s2. subst s1 s2. rewrite !step_ImgError.
  split_and!; try done;
    try (destruct s as [m n d ti mc]; simpl in *; subst;
         unfold MediaPane.shows_img, MediaPane.status, MediaPane.onSnapError; simpl;
         rewrite ?Hl; done).
  intros q t e Hu He.
  destruct (unavailable_disables q t e Hu He) as [q' ->].
  exists q'. split; [done|]. intros Hr.
  destruct (step_Render_same q q' t Hr) as (Hstep & Hlive & _).
  split; [done|]. unfold MediaPane.status in *. by rewrite Hlive.
Qed.

(** C5 (failing input). A render with another camera record leaves mode,
    counter, unavailable flag, load time and the variants memo exactly as
    they were when the new record has the same [id] as the previous one and
    the live toggle is unchanged: the reset effect and the memo both watch
    [camera?.id], not the record. The state after such a switch is the
    initial one only if it already was. *)
Theorem camera_switch_same_id_keeps_state (p p' : Props) (s : PlaybackState) :
  id <$> camera p' = id <$> camera p →
  live p' = live p →
  MediaPane.step p s (MediaPane.Render p') = (p', s) ∧
  MediaPane.status p' s = MediaPane.status p s ∧
  (dead s = true ∨ salt s ≠ 0 →
   (MediaPane.step p s (MediaPane.Render p')).2
     ≠ MediaPane.initial (camera p') (live p')).
Proof.
  intros Hid Hl.
  assert (MediaPane.reset_deps_changed p p' = false) as Hdeps.
  { unfold MediaPane.reset_deps_changed.
    by rewrite !bool_decide_eq_true_2. }
  destruct (step_Render_same p p' s Hdeps) as (Hstep & _ & _).
  split_and!; [done|by unfold MediaPane.status; rewrite Hl|].
  rewrite Hstep. simpl. intros Hs Heq. rewrite Heq in Hs. simpl in Hs.
  by destruct Hs.
Qed.

(** X17. A render in which the camera id differs from that of the previous
    render runs the reset effect and recomputes the memo: whatever the state
    was (unavailable included), afterwards the mode is the initial one for
    the live toggle, the counter is zero, the unavailable flag is cleared,
    the load time is forgotten and the variants are those of the new
    record. *)
Theorem camera_switch_resets (p p' : Props) (s : PlaybackState) (c' : CameraRecord) :
  camera p' = Some c' →
  id <$> camera p ≠ Some (id c') →
  let s' := (MediaPane.step p s (MediaPane.Render p')).2 in
  s' = MediaPane.initial (camera p') (live p') ∧
  mode s' = (if live p' then hls else snap) ∧
  salt s' = 0 ∧
  dead s' = false ∧
  memo s' = Some c' ∧
  MediaPane.status p' s' = (if live p' then LIVE else SNAPSHOT).
Proof.
  intros Hc Hne. unfold MediaPane.step. simpl.
  unfold MediaPane.rerender, MediaPane.reset_deps_changed, MediaPane.memoise.
  rewrite Hc. simpl.
  rewrite (bool_decide_eq_false_2 (id <$> camera p = Some (id c'))) by done.
  rewrite (bool_decide_eq_false_2 (Some (id c') = id <$> camera p)) by done.
  simpl. unfold MediaPane.status, MediaPane.initial_mode. simpl.
  by destruct (live p').
Qed.

(** C7. While a stream is attached (live playback on, mode [hls], a manifest
    URL at hand) the pane shows LIVE, and a stream error or a failed attach
    sets the mode to snapshot-primary and clears the unavailable flag: the
    badge reads SNAPSHOT, not UNAVAILABLE, the counter and the properties are
    untouched and nothing else is recorded. *)
Theorem stream_error_degrades `{Platform} (p : Props) (s : PlaybackState) :
  MediaPane.enabled p s MediaPane.StreamError = true →
  let p' := (MediaPane.step p s MediaPane.StreamError).1 in
  let s' := (MediaPane.step p s MediaPane.StreamError).2 in
  MediaPane.status p s = LIVE ∧
  p' = p ∧
  mode s' = snap ∧
  dead s' = false ∧
  salt s' = salt s ∧
  timeInfo s' = timeInfo s ∧
  MediaPane.status p' s' = SNAPSHOT ∧
  MediaPane.status p' s' ≠ UNAVAILABLE.
Proof.
  rewrite step_StreamError. simpl.
  unfold MediaPane.attaches, MediaPane.status. simpl.
  destruct (live p); [|done]. destruct (bool_decide (mode s = hls)); [|done].
  done.
Qed.

(** After that fallback the live toggle is still on, and the pane renders
    neither the video nor the image element; the counter keeps ticking. *)
Remark degraded_pane_renders_no_element (p : Props) (s : PlaybackState) :
  live p = true → mode s = snap → dead s = false →
  MediaPane.shows_video p s = false ∧
  MediaPane.shows_img p s = false ∧
  MediaPane.refreshInterval p s = Some (Z.max 500 (refreshMs p)).
Proof.
  intros Hl Hm Hd.
  unfold MediaPane.shows_video, MediaPane.shows_img, MediaPane.refreshInterval.
  by rewrite Hl, Hm, Hd.
Qed.

(** C8. While the pane is in snapshot-primary or snapshot-alternate (not
    unavailable) the refresh effect runs an interval of
    [max(500, refreshMs)] milliseconds; a tick adds one to the counter and
    changes nothing else, and every URL derived at the new counter value ends
    with [_rs=] followed by that value. *)
Theorem refresh_tick_bumps_salt `{Platform} (p : Props) (s : PlaybackState) :
  dead s = false → MediaPane.snapshot_mode (mode s) = true →
  let s' := (MediaPane.step p s MediaPane.RefreshTick).2 in
  MediaPane.refreshInterval p s = Some (Z.max 500 (refreshMs p)) ∧
  (500 ≤ Z.max 500 (refreshMs p))%Z ∧
  MediaPane.enabled p s MediaPane.RefreshTick = true ∧
  (MediaPane.step p s MediaPane.RefreshTick).1 = p ∧
  salt s' = salt s + 1 ∧
  salt s < salt s' ∧
  mode s' = mode s ∧
  dead s' = dead s ∧
  MediaPane.refreshInterval p s' = MediaPane.refreshInterval p s ∧
  (∀ c, camera p = Some c → extractIdFromFenetre (url c) ≠ "" →
        is_Some (MediaPane.variants p s')) ∧
  (∀ v, MediaPane.variants p s' = Some v →
        Forall (ends_with (salt_param (salt s + 1))) (derived_urls v)).
Proof.
  intros Hd Hm. rewrite step_RefreshTick. simpl.
  unfold MediaPane.refreshInterval, MediaPane.variants. simpl.
  rewrite Hd, Hm. simpl. split_and!; try done; try lia.
  - intros c -> Hid. by apply buildVariants_id.
  - intros v Hv. apply Forall_forall. intros u Hin.
    destruct (derived_urls_salted _ _ _ _ Hv Hin) as [base Hb].
    by eapply salted_ends_with.
Qed.

(** ** Shuffling *)

Section shuffle_facts.
Context {A : Type}.
Implicit Types l : list A.
Import Shuffle.

Lemma get_fmap_Some l i : get (Some <$> l) i = l !! i.
Proof.
  unfold get. rewrite list_lookup_fmap. by destruct (l !! i).
Qed.

Lemma set_fmap_Some l i x :
  i < length l → set (Some <$> l) i (Some x) = Some <$> <[i:=x]> l.
Proof.
  intros Hi. unfold set. rewrite length_fmap.
  rewrite decide_True by done. by rewrite list_fmap_insert.
Qed.

(** Within the bounds of the array, the destructuring swap exchanges two
    elements and creates no hole. *)
Lemma swap_in_range l i j :
  i < length l → j < length l →
  ∃ l', swap (Some <$> l) i j = Some <$> l' ∧ l' ≡ₚ l ∧ length l' = length l.
Proof.
  intros Hi Hj.
  destruct (lookup_lt_is_Some_2 l i Hi) as [x Hx].
  destruct (lookup_lt_is_Some_2 l j Hj) as [y Hy].
  exists (<[j:=x]> (<[i:=y]> l)). split_and!.
  - unfold swap. rewrite !get_fmap_Some, Hx, Hy.
    rewrite set_fmap_Some by done.
    rewrite set_fmap_Some by (by rewrite length_insert). done.
  - by apply Permutation_insert_swap.
  - by rewrite !length_insert.
Qed.

(** A random number of the unit interval picks an index between 0 and [i]. *)
Lemma pick_range random k i :
  unit_interval random → (0 ≤ pick random k i ≤ Z.of_nat i)%Z.
Proof.
  intros Hr. destruct (Hr k) as [H0 H1]. unfold pick.
  set (m := Z.of_nat (i + 1)).
  assert (0 < inject_Z m)%Q as Hm.
  { change 0%Q with (inject_Z 0). rewrite <- Zlt_Qlt. unfold m. lia. }
  assert (Qfloor (random k * inject_Z m) < m)%Z as Hlt.
  { rewrite Zlt_Qlt. eapply Qle_lt_trans; [apply Qfloor_le|].
    rewrite <- (Qmult_1_l (inject_Z m)) at 2.
    by apply Qmult_lt_compat_r. }
  assert (0 ≤ Qfloor (random k * inject_Z m))%Z as Hge.
  { change 0%Z with (Qfloor 0). apply Qfloor_resp_le.
    apply Qmult_le_0_compat; [done|]. by apply Qlt_le_weak. }
  subst m. lia.
Qed.

Lemma loop_permutes random k i l :
  unit_interval random → i < length l ∨ i = 0 →
  ∃ l', loop random k i (Some <$> l) = Some <$> l' ∧ l' ≡ₚ l.
Proof.
  intros Hr. revert k l. induction i as [|i IH]; intros k l Hi; simpl.
  { by exists l. }
  destruct Hi as [Hi|]; [|done].
  pose proof (pick_range random k (S i) Hr) as Hj.
  destruct (swap_in_range l (S i) (Z.to_nat (pick random k (S i))))
    as (l1 & -> & Hperm & Hlen); [lia..|].
  destruct (IH (S k) l1) as (l' & -> & Hperm'); [lia|].
  exists l'. split; [done|]. by etrans.
Qed.

End shuffle_facts.

(** C9. With [Math.random] returning numbers of the unit interval,
    [useShuffle] returns an array without holes whose elements are a
    permutation of the input list, whether shuffling is enabled or not; in
    particular the camera ids before and after are the same multiset. *)
Theorem shuffle_is_permutation (random : nat → Q) (l : list CameraRecord)
    (enabled : bool) :
  Shuffle.unit_interval random →
  ∃ l', Shuffle.useShuffle random l enabled = Some <$> l' ∧
        l' ≡ₚ l ∧
        id <$> l' ≡ₚ id <$> l ∧
        (enabled = false → l' = l).
Proof.
  intros Hr.
  assert (∃ l', Shuffle.useShuffle random l enabled = Some <$> l' ∧ l' ≡ₚ l ∧
                (enabled = false → l' = l))
    as (l' & Heq & Hperm & Hoff).
  { unfold Shuffle.useShuffle. destruct enabled; simpl; [|by exists l].
    destruct (loop_permutes random 0 (length (Some <$> l) - 1) l Hr)
      as (l' & Heq & Hperm).
    - rewrite length_fmap. destruct l; simpl; [by right|left; lia].
    - by exists l'. }
  exists l'. split_and!; [done..| |done]. by rewrite Hperm.
Qed.

(** ** Slideshow *)

(** The first element is current at index 0. *)
Lemma current_head (c : CameraRecord) (l : list CameraRecord) :
  Slideshow.current (c :: l) 0%Z = Some c.
Proof. unfold Slideshow.current. simpl. reflexivity. Qed.

(** C10 (failing run). A playing slideshow can be left without an advance
    timer on a non-empty list. Mounted with autoplay on the one-camera list
    [[c]], the effect starts a timer of [max(3, dwellSec)] seconds. When it
    fires, [next] maps index 0 to [(0 + 1) % 1 = 0]: no dependency of the
    effect changes, so no new timer is started. When the list then grows to
    [c :: l], the index, the play flag, the dwell time and the id of the
    current camera are still the same: the slideshow is playing, shows [c],
    has no pending timer, and its timer cannot fire. *)
Theorem autoplay_stalls_after_list_grows (c : CameraRecord)
    (l : list CameraRecord) (d : Z) :
  let v1 := {| Autoplay.shown := [c]; Autoplay.dwellSec := d |} in
  let v := {| Autoplay.shown := c :: l; Autoplay.dwellSec := d |} in
  let st0 := Autoplay.mount v1 true in
  let st1 := (Autoplay.step v1 st0 Autoplay.Fire).2 in
  let st2 := (Autoplay.step v1 st1 (Autoplay.Show v)).2 in
  Autoplay.timer st0
    = Some {| Autoplay.delay := (Z.max 3 d * 1000)%Z; Autoplay.armed_on := [c] |} ∧
  Autoplay.enabled st0 Autoplay.Fire = true ∧
  st1 = {| Autoplay.index := 0%Z; Autoplay.playing := true; Autoplay.timer := None |} ∧
  st2 = st1 ∧
  Autoplay.reachable v st2 ∧
  Autoplay.playing st2 = true ∧
  Slideshow.current (Autoplay.shown v) (Autoplay.index st2) = Some c ∧
  Autoplay.timer st2 = None ∧
  Autoplay.enabled st2 Autoplay.Fire = false.
Proof.
  intros v1 v st0 st1 st2.
  assert (st0 = {| Autoplay.index := 0%Z; Autoplay.playing := true;
                   Autoplay.timer := Some {| Autoplay.delay := (Z.max 3 d * 1000)%Z;
                                             Autoplay.armed_on := [c] |} |}) as H0.
  { reflexivity. }
  assert (Autoplay.step v1 st0 Autoplay.Fire
          = (v1, {| Autoplay.index := 0%Z; Autoplay.playing := true;
                    Autoplay.timer := None |})) as H1.
  { rewrite H0. unfold Autoplay.step. simpl.
    unfold Autoplay.settle. by rewrite decide_True by reflexivity. }
  assert (st1 = {| Autoplay.index := 0%Z; Autoplay.playing := true;
                   Autoplay.timer := None |}) as Hst1.
  { unfold st1. by rewrite H1. }
  assert (Autoplay.step v1 st1 (Autoplay.Show v) = (v, st1)) as H2.
  { rewrite Hst1. unfold Autoplay.step. simpl.
    assert (Autoplay.relist v1 v {| Autoplay.index := 0%Z; Autoplay.playing := true;
                                    Autoplay.timer := None |}
            = {| Autoplay.index := 0%Z; Autoplay.playing := true;
                 Autoplay.timer := None |}) as ->.
    { unfold Autoplay.relist. by destruct (decide _). }
    unfold Autoplay.settle. rewrite decide_True; [done|].
    unfold Autoplay.deps. simpl. by rewrite ?current_head. }
  assert (st2 = st1) as Hst2 by (unfold st2; by rewrite H2).
  assert (Autoplay.reachable v st1) as Hreach.
  { apply (Autoplay.reach_step v1 st1 (Autoplay.Show v) v st1); [|done|exact H2].
    apply (Autoplay.reach_step v1 st0 Autoplay.Fire v1 st1);
      [apply Autoplay.reach_mount|done|].
    by rewrite H1, Hst1. }
  rewrite Hst2. split_and!; try done; by rewrite Hst1.
Qed.

(** ** Filtering *)

(** C3 (as amended). A record is in the playable list exactly when it is in
    the camera list, matches the region (or no region is selected), matches
    the query (or the query is blank) and has a non-empty viewer address. So
    every playable record has a viewer address and a record without one is
    left out; whether an id can be read from the address plays no part. *)
Theorem filtered_requires_url `{Platform} (cs : list CameraRecord)
    (region_ query : string) (c : CameraRecord) :
  let q := toLowerCase (trim query) in
  (c ∈ filtered cs region_ query ↔
     c ∈ cs ∧ (region_ = "" ∨ region c = region_) ∧
     (q = "" ∨ Js.includes q (hay c) = true) ∧ url c ≠ "") ∧
  (c ∈ filtered cs region_ query → url c ≠ "") ∧
  (url c = "" → c ∉ filtered cs region_ query).
Proof.
  intros q.
  assert (c ∈ filtered cs region_ query ↔
     c ∈ cs ∧ (region_ = "" ∨ region c = region_) ∧
     (q = "" ∨ Js.includes q (hay c) = true) ∧ url c ≠ "") as Hiff.
  { unfold filtered. fold q. rewrite !list_elem_of_In, filter_In.
    unfold keep. rewrite !andb_true_iff, !orb_true_iff, !negb_true_iff.
    rewrite !truthy_str_false, truthy_str_true, bool_decide_eq_true.
    tauto. }
  split; [exact Hiff|]. rewrite Hiff. tauto.
Qed.

(** ** Feed loader *)

Section feed_facts.
Import Feed.

Lemma Set_from_fold acc l :
  NoDup acc →
  NoDup (foldl (λ acc x, if decide (x ∈ acc) then acc else acc ++ [x]) acc l) ∧
  ∀ x : string,
    x ∈ foldl (λ acc x, if decide (x ∈ acc) then acc else acc ++ [x]) acc l
    ↔ x ∈ acc ∨ x ∈ l.
Proof.
  revert acc. induction l as [|y l IH]; intros acc Hacc; simpl.
  { split; [done|]. intros x. rewrite elem_of_nil. tauto. }
  destruct (decide (y ∈ acc)) as [Hy|Hy].
  - destruct (IH acc Hacc) as [Hnd Hin]. split; [done|].
    intros x. rewrite Hin, elem_of_cons. split; [tauto|].
    intros [?|[->|?]]; tauto.
  - assert (NoDup (acc ++ [y])) as Hnd'.
    { apply NoDup_app. split_and!; [done| |apply NoDup_singleton].
      intros x Hx ->%list_elem_of_singleton. done. }
    destruct (IH _ Hnd') as [Hnd Hin]. split; [done|].
    intros x. rewrite Hin, elem_of_app, list_elem_of_singleton, elem_of_cons. tauto.
Qed.

Lemma Set_from_NoDup l : NoDup (Set_from l).
Proof. apply Set_from_fold, NoDup_nil_2. Qed.

Lemma elem_of_Set_from l x : x ∈ Set_from l ↔ x ∈ l.
Proof.
  unfold Set_from. destruct (Set_from_fold [] l (NoDup_nil_2)) as [_ Hin].
  rewrite Hin, elem_of_nil. tauto.
Qed.

(** The region list of a camera list: sorted, without repetition, and made
    of the region values of the cameras, the empty one included. *)
Lemma regions_of_spec items :
  Sorted String.le (regions_of items) ∧
  NoDup (regions_of items) ∧
  ∀ r, r ∈ regions_of items ↔ ∃ c, c ∈ items ∧ region c = r.
Proof.
  unfold regions_of, sort. split_and!.
  - apply Sorted_merge_sort. apply _.
  - rewrite merge_sort_Permutation. apply Set_from_NoDup.
  - intros r. rewrite merge_sort_Permutation, elem_of_Set_from, list_elem_of_fmap.
    split.
    + intros (c & -> & Hc). by exists c.
    + intros (c & Hc & <-). by exists c.
Qed.

End feed_facts.

(** C4 (as amended). When the structured endpoint answers with a status
    outside 2xx, the loader requests the delimited-text endpoint next and,
    if that answers 2xx, parses its text with the first row as header and
    blank rows skipped. When the request to the structured endpoint is
    rejected, or its 2xx answer has a body that does not parse, the loader
    sends no second request and reports the error. *)
Theorem fallback_on_status_only `{Platform} (net : Network) (st : CamerasState) :
  (∀ r, answer_geojson net = Resolved r → ok r = false →
    Feed.try_load net =
      ([geojson; csv],
       match answer_csv net with
       | Resolved res =>
           if ok res
           then text ← body res;
                mapM Feed.row_camera
                  (Papa_parse text {| header := true; skipEmptyLines := true |})
           else None
       | Rejected => None
       end)) ∧
  (answer_geojson net = Rejected →
    Feed.load net false st = ([geojson], Feed.failed st)) ∧
  (∀ r, answer_geojson net = Resolved r → ok r = true → body r = None →
    Feed.load net false st = ([geojson], Feed.failed st)).
Proof.
  split_and!.
  - intros r Hr Hok. unfold Feed.try_load, Feed.fetch. rewrite Hr. simpl.
    rewrite Hok. simpl. destruct (answer_csv net) as [|res]; simpl; [done|].
    destruct (ok res); simpl; [|done].
    by destruct (body res).
  - intros Hr. unfold Feed.load, Feed.try_load, Feed.fetch. by rewrite Hr.
  - intros r Hr Hok Hb. unfold Feed.load, Feed.try_load, Feed.fetch.
    rewrite Hr. simpl. rewrite Hok, Hb. done.
Qed.

(** C6 (as amended). After a load that arrived at a camera list, from either
    endpoint, the hooks hold that list, no error, and a region list that is
    sorted in code order, has no repetition, and consists of exactly the
    region values of the loaded records, so the empty value is listed when a
    record has no region. *)
Theorem regions_sorted_distinct `{Platform} (net : Network) (st : CamerasState)
    (items : list CameraRecord) :
  (Feed.try_load net).2 = Some items →
  let st' := (Feed.load net false st).2 in
  cameras st' = items ∧
  error st' = "" ∧
  regions st' = Feed.sort (Feed.Set_from (region <$> items)) ∧
  Sorted String.le (regions st') ∧
  NoDup (regions st') ∧
  ∀ r, r ∈ regions st' ↔ ∃ c, c ∈ cameras st' ∧ region c = r.
Proof.
  intros Hitems. unfold Feed.load.
  destruct (Feed.try_load net) as [sent r]. simpl in Hitems. subst r. simpl.
  destruct (regions_of_spec items) as (Hs & Hnd & Hin). done.
Qed.

Section evaluation.
#[local] Existing Instance Browser.browser.

Lemma snapshot_url_of_id_witness :
  extractIdFromFenetre (url Samples.cam42) ≠ "" ∧
  v_snap <$> buildVariants (Some Samples.cam42) 1
    = Some "https://www.quebec511.info/Images/Cameras/Quebec/cam/42.jpg?_rs=1".
Proof.
  assert (extractIdFromFenetre (url Samples.cam42) ≠ "") as Hid
    by (vm_compute; discriminate).
  split; [exact Hid|].
  destruct (snapshot_url_of_id Samples.cam42 1 Hid) as (v & -> & Hvid & Hsnap & _).
  destruct (Hsnap eq_refl) as [_ E]. simpl. rewrite E, Hvid. reflexivity.
Defined.

(** The scenario of the specification, evaluated: the viewer address
    [.../camera.ashx?id=42] without [imgDirect], at counter values 0 and 1,
    and a record with a direct image address that has a query string. *)
Example snapshot_url_scenario :
  v_snap <$> buildVariants (Some Samples.cam42) 0
    = Some "https://www.quebec511.info/Images/Cameras/Quebec/cam/42.jpg?_rs=0" ∧
  v_snap <$> buildVariants (Some Samples.cam42) 1
    = Some "https://www.quebec511.info/Images/Cameras/Quebec/cam/42.jpg?_rs=1" ∧
  v_snap <$> buildVariants (Some Samples.cam7_direct) 3
    = Some "https://cdn.example.org/cam/7.jpg?size=large&_rs=3" ∧
  v_html <$> buildVariants (Some Samples.cam42) 0
    = Some "https://www.quebec511.info/Carte/Fenetres/camera.ashx?id=42&_rs=0".
Proof. repeat split. Qed.

Lemma failures_lead_to_terminal_witness :
  let p := Samples.pane Samples.cam42 false in
  let s := MediaPane.initial (Some Samples.cam42) false in
  let s2 := MediaPane.onSnapError (MediaPane.onSnapError s) in
  (live p = false ∧ mode s = snap ∧ dead s = false) ∧
  MediaPane.status p s2 = UNAVAILABLE ∧
  (MediaPane.step p s2 (MediaPane.Render p)).2 = s2.
Proof.
  intros p s s2.
  pose proof (failures_lead_to_terminal p s eq_refl eq_refl eq_refl)
    as (_ & _ & _ & _ & _ & _ & _ & Hu & Hterminal).
  split; [done|]. split; [exact Hu|].
  destruct (Hterminal p s2 (MediaPane.Render p) Hu eq_refl) as (q' & [= <-] & Hsame).
  destruct (Hsame eq_refl) as [Hstep _]. by rewrite Hstep.
Defined.

(** C1 as stated fails: on the same camera, switching the live toggle
    re-runs the reset effect and takes the pane from unavailable to live. *)
Lemma live_toggle_leaves_unavailable :
  let p := Samples.pane Samples.cam42 false in
  let p' := Samples.pane Samples.cam42 true in
  let s := MediaPane.onSnapError (MediaPane.onSnapError (MediaPane.initial (Some Samples.cam42) false)) in
  MediaPane.status p s = UNAVAILABLE ∧
  camera p' = camera p ∧
  MediaPane.enabled p s (MediaPane.Render p') = true ∧
  MediaPane.step p s (MediaPane.Render p') = (p', MediaPane.initial (camera p') true) ∧
  MediaPane.status p' (MediaPane.initial (camera p') true) = LIVE.
Proof. repeat split. Qed.

(** The failing input of C5: a feed whose cameras carry no id property
    gives two playable records with the id [""]. The pane of the first is
    driven to unavailable at counter 1; switching to the second changes
    neither, and the memoised URLs remain those of the first camera. *)
Lemma camera_switch_same_id_keeps_state_witness :
  let cs := cameras (Feed.load Samples.net_anon false Feed.initial).2 in
  ∃ c1 c2,
    cs = [c1; c2] ∧ filtered cs "" "" = [c1; c2] ∧
    url c1 ≠ url c2 ∧ id c1 = "" ∧ id c2 = "" ∧
    let p := Samples.pane c1 false in
    let p' := Samples.pane c2 false in
    let s := (Run.exec p (MediaPane.initial (Some c1) false)
                [MediaPane.RefreshTick; MediaPane.ImgError; MediaPane.ImgError]).2 in
    (id <$> camera p' = id <$> camera p ∧ live p' = live p) ∧
    Run.reachable p s ∧
    MediaPane.status p s = UNAVAILABLE ∧ salt s = 1 ∧
    MediaPane.step p s (MediaPane.Render p') = (p', s) ∧
    MediaPane.status p' s = UNAVAILABLE ∧
    s ≠ MediaPane.initial (Some c2) false ∧
    v_snap <$> MediaPane.variants p' s
      = Some "https://www.quebec511.info/Images/Cameras/Quebec/cam/42.jpg?_rs=1" ∧
    v_snap <$> buildVariants (Some c2) 1
      = Some "https://www.quebec511.info/Images/Cameras/Quebec/cam/7.jpg?_rs=1".
Proof.
  intros cs.
  destruct cs as [|c1 [|c2 [|c3 cs']]] eqn:Hcs; try discriminate Hcs.
  injection Hcs as <- <-.
  eexists _, _. split; [reflexivity|]. split; [vm_compute; reflexivity|].
  split; [vm_compute; discriminate|]. split; [reflexivity|]. split; [reflexivity|].
  intros p p' s.
  destruct (camera_switch_same_id_keeps_state p p' s eq_refl eq_refl)
    as (Hstep & Hstatus & Hkept).
  split; [done|]. split.
  { eapply (Run.reach_step p _ MediaPane.ImgError);
      [eapply (Run.reach_step p _ MediaPane.ImgError);
         [eapply (Run.reach_step p _ MediaPane.RefreshTick);
            [apply Run.reach_mount; by eexists|reflexivity|discriminate|reflexivity]
         |reflexivity|discriminate|reflexivity]
      |reflexivity|discriminate|reflexivity]. }
  split; [reflexivity|]. split; [reflexivity|].
  split; [exact Hstep|]. split; [rewrite Hstatus; reflexivity|].
  split; [|split; vm_compute; reflexivity].
  intros Heq. apply Hkept; [by left|]. by rewrite Hstep.
Defined.

Lemma camera_switch_resets_witness :
  let p := Samples.pane Samples.cam42 false in
  let p' := Samples.pane Samples.cam7_direct true in
  let s := MediaPane.bumpSalt
             (MediaPane.onSnapError (MediaPane.onSnapError (MediaPane.initial (Some Samples.cam42) false))) in
  (camera p' = Some Samples.cam7_direct ∧
   id <$> camera p ≠ Some (id Samples.cam7_direct)) ∧
  MediaPane.status p s = UNAVAILABLE ∧ salt s = 1 ∧
  (MediaPane.step p s (MediaPane.Render p')).2
    = MediaPane.initial (Some Samples.cam7_direct) true.
Proof.
  intros p p' s.
  assert (id <$> camera p ≠ Some (id Samples.cam7_direct)) as Hne
    by (vm_compute; discriminate).
  split; [done|]. split; [reflexivity|]. split; [reflexivity|].
  apply (camera_switch_resets p p' s Samples.cam7_direct eq_refl Hne).
Defined.

Lemma stream_error_degrades_witness :
  let p := Samples.pane Samples.cam42 true in
  let s := MediaPane.initial (Some Samples.cam42) true in
  MediaPane.enabled p s MediaPane.StreamError = true ∧
  MediaPane.status p s = LIVE ∧
  MediaPane.status p (MediaPane.step p s MediaPane.StreamError).2 = SNAPSHOT.
Proof.
  intros p s.
  assert (MediaPane.enabled p s MediaPane.StreamError = true) as He
    by (vm_compute; reflexivity).
  split; [exact He|].
  pose proof (stream_error_degrades p s He) as (Hlive & Hp & _ & _ & _ & _ & Hs & _).
  split; [exact Hlive|]. simpl in Hp, Hs. exact Hs.
Defined.

Lemma refresh_tick_bumps_salt_witness :
  let p := Samples.pane Samples.cam42 false in
  let s := MediaPane.initial (Some Samples.cam42) false in
  (dead s = false ∧ MediaPane.snapshot_mode (mode s) = true) ∧
  MediaPane.refreshInterval p s = Some 1500%Z ∧
  salt (MediaPane.step p s MediaPane.RefreshTick).2 = 1 ∧
  MediaPane.img_src p (MediaPane.step p s MediaPane.RefreshTick).2
    = Some "https://www.quebec511.info/Images/Cameras/Quebec/cam/42.jpg?_rs=1".
Proof.
  intros p s.
  pose proof (refresh_tick_bumps_salt p s eq_refl eq_refl)
    as (Hint & _ & _ & _ & Hsalt & _).
  split; [done|]. split; [exact Hint|]. split; [exact Hsalt|]. reflexivity.
Defined.

(** A refresh period below the minimum is raised to 500 ms. *)
Example refresh_interval_clamped :
  MediaPane.refreshInterval
    {| camera := Some Samples.cam42; live := false; refreshMs := 120; restartSec := 5 |}
    (MediaPane.initial (Some Samples.cam42) false) = Some 500%Z.
Proof. reflexivity. Qed.

Lemma shuffle_is_permutation_witness :
  let random := λ k : nat, match k with 0 => 1 # 4 | _ => 3 # 4 end in
  let l := [Samples.cam42; Samples.cam7_direct; Samples.cam_noid] in
  Shuffle.unit_interval random ∧
  Shuffle.useShuffle random l true
    = [Some Samples.cam_noid; Some Samples.cam7_direct; Some Samples.cam42] ∧
  ∃ l', Shuffle.useShuffle random l true = Some <$> l' ∧ id <$> l' ≡ₚ id <$> l.
Proof.
  intros random l.
  assert (Shuffle.unit_interval random) as Hr.
  { intros [|k]; split; unfold Qle, Qlt; simpl; lia. }
  split; [exact Hr|]. split; [vm_compute; reflexivity|].
  destruct (shuffle_is_permutation random l true Hr) as (l' & Heq & _ & Hids & _).
  by exists l'.
Defined.

(** The run of C10 on sample cameras, with a dwell time of one second. *)
Example autoplay_stall_scenario :
  let v1 := {| Autoplay.shown := [Samples.cam42]; Autoplay.dwellSec := 1 |} in
  let v := {| Autoplay.shown := [Samples.cam42; Samples.cam7_direct; Samples.cam_noid];
              Autoplay.dwellSec := 1 |} in
  let idle := {| Autoplay.index := 0%Z; Autoplay.playing := true;
                 Autoplay.timer := None |} in
  Autoplay.mount v1 true
    = {| Autoplay.index := 0%Z; Autoplay.playing := true;
         Autoplay.timer := Some {| Autoplay.delay := 3000%Z;
                                   Autoplay.armed_on := [Samples.cam42] |} |} ∧
  Autoplay.step v1 (Autoplay.mount v1 true) Autoplay.Fire = (v1, idle) ∧
  Autoplay.step v1 idle (Autoplay.Show v) = (v, idle) ∧
  Slideshow.current (Autoplay.shown v) (Autoplay.index idle) = Some Samples.cam42 ∧
  Autoplay.enabled idle Autoplay.Fire = false.
Proof. repeat split. Qed.

Lemma filtered_requires_url_witness :
  let cs := cameras (Feed.load Samples.net_up false Feed.initial).2 in
  ∃ c, cs !! 1 = Some c ∧
       c ∈ filtered cs "Outaouais" " hIGH " ∧
       url c ≠ "".
Proof.
  intros cs.
  destruct (cs !! 1) as [c|] eqn:Hc; [|vm_compute in Hc; discriminate].
  exists c. split; [done|].
  assert (c ∈ filtered cs "Outaouais" " hIGH ") as Hin.
  { vm_compute in Hc. injection Hc as <-. vm_compute.
    apply list_elem_of_further, list_elem_of_here. }
  split; [exact Hin|].
  apply (filtered_requires_url cs "Outaouais" " hIGH " c), Hin.
Defined.

(** C3 as stated fails: the structured feed [Samples.feed] loads; its second
    record has a viewer address without an [id] parameter, is kept by the
    filter, and yields neither an id nor media URLs. *)
Lemma playable_without_id :
  let st := (Feed.load Samples.net_up false Feed.initial).2 in
  let playable := filtered (cameras st) "Outaouais" "" in
  error st = "" ∧
  url <$> playable = [Samples.viewer "?id=42"; Samples.viewer ""] ∧
  (λ c, extractIdFromFenetre (url c)) <$> playable = ["42"; ""] ∧
  (λ c, buildVariants (Some c) 0) <$> (playable !! 1) = Some None.
Proof. repeat split. Qed.

Lemma fallback_on_status_only_witness :
  (∃ r, answer_geojson Samples.net_503 = Resolved r ∧ ok r = false) ∧
  answer_geojson Samples.net_down = Rejected ∧
  (Feed.try_load Samples.net_503).1 = [geojson; csv] ∧
  Feed.load Samples.net_down false Feed.initial = ([geojson], Feed.failed Feed.initial).
Proof.
  destruct (fallback_on_status_only Samples.net_503 Feed.initial) as (H503 & _ & _).
  destruct (fallback_on_status_only Samples.net_down Feed.initial) as (_ & Hdown & _).
  split; [eexists; split; reflexivity|]. split; [reflexivity|]. split.
  - by rewrite (H503 _ eq_refl eq_refl).
  - exact (Hdown eq_refl).
Defined.

(** C4 as stated fails: with the delimited-text endpoint in working order,
    a rejected request to the structured endpoint, and likewise a 2xx answer
    whose body does not parse, ends the load with the error after a single
    request; only the 503 answer reaches the second endpoint. *)
Lemma no_fallback_on_network_error :
  Feed.load Samples.net_down false Feed.initial
    = ([geojson], Feed.failed Feed.initial) ∧
  Feed.load Samples.net_malformed false Feed.initial
    = ([geojson], Feed.failed Feed.initial) ∧
  (csv ∉ fst (Feed.load Samples.net_down false Feed.initial)) ∧
  (csv ∉ fst (Feed.load Samples.net_malformed false Feed.initial)) ∧
  (Feed.load Samples.net_503 false Feed.initial).1 = [geojson; csv] ∧
  region <$> cameras (Feed.load Samples.net_503 false Feed.initial).2
    = ["Outaouais"; "Estrie"].
Proof.
  split_and!; try reflexivity.
  - intros [=]%list_elem_of_singleton.
  - intros [=]%list_elem_of_singleton.
Qed.

Lemma regions_sorted_distinct_witness :
  ∃ items,
    (Feed.try_load Samples.net_503).2 = Some items ∧
    region <$> items = ["Outaouais"; "Estrie"] ∧
    regions (Feed.load Samples.net_503 false Feed.initial).2 = ["Estrie"; "Outaouais"] ∧
    NoDup (regions (Feed.load Samples.net_503 false Feed.initial).2).
Proof.
  destruct (Feed.try_load Samples.net_503).2 as [items|] eqn:Hitems;
    [|vm_compute in Hitems; discriminate].
  exists items. split; [done|].
  pose proof (regions_sorted_distinct Samples.net_503 Feed.initial items Hitems)
    as (_ & _ & _ & _ & Hnd & _).
  split; [|split; [reflexivity|exact Hnd]].
  vm_compute in Hitems. injection Hitems as <-. reflexivity.
Defined.

(** C6 as stated fails: the third record of [Samples.feed] has no region,
    the load succeeds, and the empty string is listed among the regions. *)
Lemma empty_region_listed :
  let st := (Feed.load Samples.net_up false Feed.initial).2 in
  error st = "" ∧
  region <$> cameras st = ["Outaouais"; "Outaouais"; ""] ∧
  regions st = [""; "Outaouais"] ∧
  "" ∈ regions st.
Proof. split_and!; try reflexivity. apply list_elem_of_here. Qed.

End evaluation.

(** * Further properties of the code *)

(** ** Media URLs *)

Lemma string_of_nat_inj (n m : nat) :
  Js.string_of_nat n = Js.string_of_nat m → n = m.
Proof.
  unfold Js.string_of_nat. intros Heq.
  assert (∀ k, Nat.to_uint k ≠ Decimal.Nil) as Hnil.
  { intros k Hk. pose proof (DecimalNat.Unsigned.of_to k) as Hof.
    rewrite Hk in Hof. simpl in Hof. subst k. discriminate Hk. }
  apply DecimalNat.Unsigned.to_uint_inj.
  pose proof (NilZero.usu _ (Hnil n)) as Hn.
  pose proof (NilZero.usu _ (Hnil m)) as Hm.
  rewrite Heq in Hn. congruence.
Qed.

Lemma withSalt_inj (n m : nat) (u : string) :
  u ≠ "" → withSalt n u = withSalt m u → n = m.
Proof.
  intros Hu. unfold withSalt.
  rewrite (proj2 (truthy_str_true u) Hu).
  intros Heq. do 3 apply (inj (String.app _)) in Heq.
  by apply string_of_nat_inj.
Qed.

Lemma withSalt_nonempty (n : nat) (u : string) : u ≠ "" → withSalt n u ≠ "".
Proof.
  intros Hu. unfold withSalt. rewrite (proj2 (truthy_str_true u) Hu).
  by apply append_nonempty_l.
Qed.

(** X1. [buildVariants] returns the empty object exactly when there is no
    camera or no id can be read from its viewer address, whatever the
    counter; when it returns variants, the id and all four URLs are
    non-empty. *)
Theorem variants_exist_iff_id `{Platform} (camera_ : option CameraRecord) (n : nat) :
  (buildVariants camera_ n = None ↔
     ∀ c, camera_ = Some c → extractIdFromFenetre (url c) = "") ∧
  (∀ m, is_Some (buildVariants camera_ n) ↔ is_Some (buildVariants camera_ m)) ∧
  (∀ v, buildVariants camera_ n = Some v →
        v_id v ≠ "" ∧ Forall (λ u, u ≠ "") (derived_urls v)).
Proof.
  assert (∀ k, buildVariants camera_ k = None ↔
     ∀ c, camera_ = Some c → extractIdFromFenetre (url c) = "") as Hnone.
  { intros k. split.
    - intros Hb c -> . destruct (decide (extractIdFromFenetre (url c) = "")) as [|Hid];
        [done|].
      destruct (buildVariants_id c k Hid) as [v Hv]. congruence.
    - intros Hc. destruct (buildVariants camera_ k) as [v|] eqn:Hv; [|done].
      apply buildVariants_Some in Hv as (c & -> & Hid & _). by destruct (Hid (Hc c eq_refl)). }
  split_and!.
  - apply Hnone.
  - intros m. rewrite <- !not_eq_None_Some, !Hnone. done.
  - intros v Hv. pose proof Hv as (c & -> & Hid & Hu & ->)%buildVariants_Some.
    split; [done|]. apply Forall_forall. intros u Hin.
    destruct (derived_urls_salted _ _ _ _ Hv Hin) as (base & Hb & ->).
    by apply append_nonempty_l.
Qed.

(** X2. The counter tells the URLs of one camera apart: at two different
    counter values each of the four URLs differs, while the id is the
    same. *)
Theorem salt_distinguishes_urls `{Platform} (camera_ : option CameraRecord)
    (n m : nat) (v w : Variants) :
  buildVariants camera_ n = Some v →
  buildVariants camera_ m = Some w →
  n ≠ m →
  v_id v = v_id w ∧
  v_snap v ≠ v_snap w ∧ v_jpg v ≠ v_jpg w ∧
  v_m3u8 v ≠ v_m3u8 w ∧ v_html v ≠ v_html w.
Proof.
  intros (c & -> & Hid & Hu & ->)%buildVariants_Some
         (c' & [= <-] & _ & _ & ->)%buildVariants_Some Hnm.
  cbn [v_id v_snap v_jpg v_m3u8 v_html].
  split_and!; [done|intros Heq; apply Hnm; eapply withSalt_inj; [|exact Heq]..].
  - apply (primarySnap_nonempty (Some c)).
  - apply endpoint_nonempty.
  - apply endpoint_nonempty.
  - done.
Qed.

(** X3. The image element takes its URLs from the record the variants memo
    was last computed from. With that record having an id, the element asks
    for the record's primary snapshot URL while the mode is [snap]; after
    the first load failure it asks for the alternate endpoint
    [ORIGIN/Carte/Fenetres/camera.ashx?id=<id>&format=jpg&_rs=<salt>] with
    the id of that same record, at the same counter value. After a refresh
    tick the record is the current camera. *)
Theorem alternate_source_after_failure `{Platform} (p : Props) (s : PlaybackState)
    (c : CameraRecord) :
  memo s = Some c → extractIdFromFenetre (url c) ≠ "" →
  mode s = snap → dead s = false →
  let i := extractIdFromFenetre (url c) in
  MediaPane.img_src p s = Some (withSalt (salt s) (primarySnap (Some c) i)) ∧
  MediaPane.img_src p (MediaPane.step p s MediaPane.ImgError).2
    = Some (ORIGIN +:+ "/Carte/Fenetres/camera.ashx?id=" +:+ i +:+ "&format=jpg"
              +:+ "&" +:+ salt_param (salt s)) ∧
  salt (MediaPane.step p s MediaPane.ImgError).2 = salt s ∧
  memo (MediaPane.step p s MediaPane.ImgError).2 = Some c ∧
  memo (MediaPane.step p s MediaPane.RefreshTick).2 = camera p.
Proof.
  intros Hc Hid Hm Hd i. rewrite step_ImgError, step_RefreshTick.
  destruct (buildVariants_id c (salt s) Hid) as [v Hv].
  pose proof Hv as (c' & [= <-] & _ & _ & Hdef)%buildVariants_Some.
  unfold MediaPane.img_src, MediaPane.variants, MediaPane.onSnapError.
  rewrite Hd, Hm. simpl. rewrite Hc, Hv. simpl. subst v. simpl.
  split_and!; [done| |done..]. f_equal. unfold withSalt.
  rewrite (proj2 (truthy_str_true _)) by apply endpoint_nonempty.
  rewrite (includes_char_app _ ORIGIN), (includes_char_app _ "/Carte/Fenetres/camera.ashx?id=").
  simpl. rewrite orb_true_r. unfold salt_param, i.
  by rewrite !append_assoc.
Qed.

(** ** Playback *)

Section run_facts.
Context `{Platform}.
Import MediaPane.

Lemma reachable_core p s :
  Run.reachable p s →
  is_Some (camera p) ∧
  (mode s = hls → live p = true ∧ dead s = false) ∧
  (dead s = true → live p = false ∧ mode s = jpg).
Proof.
  induction 1 as [p Hc|p s e p' s' _ IH He Hcam Hstep].
  - split; [done|]. unfold initial, initial_mode; simpl.
    destruct (live p); split; intros; try done.
  - destruct IH as (Hc & Hh & Hd).
    destruct (step_cells p s e) as (Hp & Hmo & _ & Hde & _).
    rewrite Hstep in Hp, Hmo, Hde. simpl fst in Hp. simpl snd in Hmo, Hde.
    rewrite Hmo, Hde. subst p'. clear Hstep Hmo Hde s'.
    destruct e as [|now| | | |q]; simpl in He |- *.
    + unfold shows_img in He.
      apply andb_true_iff in He as [[Hl Hnd]%andb_true_iff Hs].
      apply negb_true_iff in Hl, Hnd. unfold onSnapError. rewrite Hnd.
      destruct (mode s) eqn:Hm; [done|..]; simpl; rewrite ?Hm;
        split_and!; intros; try done.
    + split; [done|]. unfold setLoadedNow.
      destruct (date (timeInfo s)); simpl; auto.
    + split; [done|]. simpl. auto.
    + unfold attaches in He.
      apply andb_true_iff in He as [[Hl Hm]%andb_true_iff _].
      apply bool_decide_eq_true in Hm.
      split; [done|]. simpl. split; intros; done.
    + split; [done|]. simpl. auto.
    + destruct (Hcam q eq_refl) as [c' Hc'].
      split; [by rewrite Hc'|].
      unfold rerender. destruct (reset_deps_changed p q) eqn:Hdeps.
      * rewrite Hc'. unfold initial_mode; simpl.
        destruct (live q); split; intros; done.
      * destruct (rerender_same_deps p q s Hdeps) as [_ Hl]. rewrite Hl. auto.
Qed.

End run_facts.

(** X4. In every state a mounted pane can reach: the mode is [hls] only
    while live playback is on and the pane is not unavailable; the pane is
    unavailable only with live playback off and after the alternate snapshot
    (mode [jpg]) failed; the badge reads UNAVAILABLE exactly when the
    unavailable panel is rendered; and of the video element, the image
    element and the panel at most one is rendered. *)
Theorem reachable_states_consistent `{Platform} (p : Props) (s : PlaybackState) :
  Run.reachable p s →
  (mode s = hls → live p = true ∧ dead s = false) ∧
  (dead s = true → live p = false ∧ mode s = jpg) ∧
  (MediaPane.status p s = UNAVAILABLE ↔ Run.shows_panel s = true) ∧
  (MediaPane.status p s = LIVE ↔ MediaPane.shows_video p s = true) ∧
  (MediaPane.shows_video p s && MediaPane.shows_img p s = false) ∧
  (MediaPane.shows_video p s && Run.shows_panel s = false) ∧
  (MediaPane.shows_img p s && Run.shows_panel s = false).
Proof.
  intros (_ & Hh & Hd)%reachable_core.
  unfold MediaPane.status, MediaPane.shows_video, MediaPane.shows_img, Run.shows_panel.
  destruct (live p), (dead s), (mode s); simpl;
    split_and!; try done; try (by destruct (Hd eq_refl));
    try (by destruct (Hh eq_refl)); split; done.
Qed.

Lemma step_keeps_load_time (p : Props) (t : PlaybackState) (e : MediaPane.Event) :
  (∀ q, e ≠ MediaPane.Render q) → is_Some (date (timeInfo t)) →
  (MediaPane.step p t e).1 = p ∧
  timeInfo (MediaPane.step p t e).2 = timeInfo t.
Proof.
  intros He [d Hd]. split; [by apply step_props|].
  rewrite (proj2 (proj2 (proj2 (proj2 (step_cells p t e))))).
  destruct e as [|n| | | |q]; simpl; try done.
  - unfold MediaPane.onSnapError.
    destruct (dead t); [done|]. by destruct (bool_decide (mode t = snap)).
  - unfold MediaPane.setLoadedNow. by rewrite Hd.
  - by destruct (He q).
Qed.

(** X5. The load time is recorded by the first load event after a reset and
    kept from then on: neither further load events nor image errors, timer
    ticks or stream errors change it; only a render (through the reset
    effect) can. A load event changes nothing but the load time. *)
Theorem first_load_time_kept (p : Props) (s : PlaybackState) (now : Z)
    (es : list MediaPane.Event) :
  Forall (λ e, ∀ q, e ≠ MediaPane.Render q) es →
  let s1 := MediaPane.setLoadedNow now s in
  (date (timeInfo s) = None → timeInfo s1 = {| source := "Local"; date := Some now |}) ∧
  (is_Some (date (timeInfo s)) → s1 = s) ∧
  mode s1 = mode s ∧ salt s1 = salt s ∧ dead s1 = dead s ∧
  (Run.exec p s1 es).1 = p ∧
  timeInfo (Run.exec p s1 es).2 = timeInfo s1.
Proof.
  intros Hes s1.
  assert (is_Some (date (timeInfo s1))) as Hset.
  { unfold s1, MediaPane.setLoadedNow.
    destruct (date (timeInfo s)) eqn:Hd; simpl; rewrite ?Hd; eauto. }
  split_and!.
  - intros Hd. unfold s1, MediaPane.setLoadedNow. by rewrite Hd.
  - intros [d Hd]. unfold s1, MediaPane.setLoadedNow. by rewrite Hd.
  - unfold s1, MediaPane.setLoadedNow. by destruct (date (timeInfo s)).
  - unfold s1, MediaPane.setLoadedNow. by destruct (date (timeInfo s)).
  - unfold s1, MediaPane.setLoadedNow. by destruct (date (timeInfo s)).
  - clear Hset. generalize s1. clear s1.
    induction Hes as [|e es He _ IH]; intros t; simpl; [done|].
    pose proof (step_props p t e He) as Hp.
    destruct (MediaPane.step p t e) as [p' t']. simpl in Hp. subst p'.
    apply IH.
  - revert Hset. generalize s1. clear s1.
    induction Hes as [|e es He _ IH]; intros t Ht; simpl; [done|].
    destruct (step_keeps_load_time p t e He Ht) as [Hp Hti].
    destruct (MediaPane.step p t e) as [p' t']. simpl in Hp, Hti. subst p'.
    rewrite IH by (by rewrite Hti). done.
Qed.

(** X6. The live-edge interval runs only with live playback on in mode
    [hls] and a non-zero period; it then lasts [max(2, restartSec)] seconds,
    so at least 2000 ms. It never runs together with the snapshot refresh
    interval. Its tick adds one to the counter and leaves the pane live. *)
Theorem live_edge_interval (p : Props) (s : PlaybackState) :
  (MediaPane.liveInterval p s = None ∨ MediaPane.refreshInterval p s = None) ∧
  (∀ d, MediaPane.liveInterval p s = Some d →
        live p = true ∧ mode s = hls ∧ restartSec p ≠ 0%Z ∧
        d = (Z.max 2 (restartSec p) * 1000)%Z ∧ (2000 ≤ d)%Z ∧
        let s' := (MediaPane.step p s MediaPane.LiveTick).2 in
        salt s' = salt s + 1 ∧ mode s' = hls ∧
        MediaPane.status p s' = LIVE ∧
        MediaPane.liveInterval p s' = Some d) ∧
  (live p = true → mode s = hls → restartSec p ≠ 0%Z →
   is_Some (MediaPane.liveInterval p s)).
Proof.
  unfold MediaPane.liveInterval, MediaPane.refreshInterval, MediaPane.status.
  split_and!.
  - destruct (mode s); simpl; rewrite ?orb_true_r; auto; destruct (dead s); auto.
  - intros d. rewrite step_LiveTick. destruct (live p) eqn:Hl; simpl; [|done].
    destruct (mode s) eqn:Hm; simpl; try done.
    destruct (restartSec p =? 0)%Z eqn:Hz; [done|].
    intros [= <-]. pose proof (proj1 (Z.eqb_neq _ _) Hz) as Hne.
    rewrite ?Hm, ?Hz. simpl. rewrite ?Hm, ?Hz. split_and!; try done; lia.
  - intros -> -> Hz%Z.eqb_neq. simpl. rewrite Hz. eauto.
Qed.

(** X7. The relative load time: empty before the first load; otherwise the
    elapsed time, never negative, rounded to whole seconds and shown in
    seconds below 60 s (that is, below 59 500 ms), in whole minutes below
    60 min, in whole hours from there on. The number shown is below 60 for
    seconds and minutes, and a load time in the future reads [0s ago]. *)
Theorem rel_units (now d : Z) (src : string) :
  let t := {| source := src; date := Some d |} in
  let s := Clock.round_seconds (Z.max 0 (now - d)) in
  Clock.rel now {| source := src; date := None |} = "" ∧
  (0 ≤ s)%Z ∧
  ((now - d < 59500)%Z →
     (s < 60)%Z ∧ Clock.rel now t = Js.string_of_Z s +:+ "s ago") ∧
  ((59500 ≤ now - d < 3599500)%Z →
     (1 ≤ s / 60 < 60)%Z ∧ Clock.rel now t = Js.string_of_Z (s / 60) +:+ "m ago") ∧
  ((3599500 ≤ now - d)%Z →
     (1 ≤ s / 3600)%Z ∧ Clock.rel now t = Js.string_of_Z (s / 3600) +:+ "h ago") ∧
  ((now ≤ d)%Z → Clock.rel now t = "0s ago").
Proof.
  intros t s. unfold Clock.rel, t; simpl. fold s.
  assert (0 ≤ s)%Z as Hs0.
  { unfold s, Clock.round_seconds. apply Z.div_pos; lia. }
  assert (∀ b, (Z.max 0 (now - d) < b * 1000 - 500 ↔ s < b)%Z) as Hlt.
  { intros b. unfold s, Clock.round_seconds. split; intros Hb.
    - apply Z.div_lt_upper_bound; lia.
    - destruct (Z_lt_ge_dec (Z.max 0 (now - d)) (b * 1000 - 500)) as [|Hge]; [done|].
      assert (b ≤ (Z.max 0 (now - d) + 500) / 1000)%Z; [|lia].
      apply Z.div_le_lower_bound; lia. }
  split_and!; [done|done|..].
  - intros Hd. assert (s < 60)%Z as Hs by (apply Hlt; lia).
    split; [done|]. by rewrite (proj2 (Z.ltb_lt _ _) Hs).
  - intros Hd.
    assert (60 ≤ s)%Z as Hs1 by (apply Z.nlt_ge; rewrite <- Hlt; lia).
    assert (s < 3600)%Z as Hs2 by (apply Hlt; lia).
    assert (1 ≤ s / 60 < 60)%Z as Hm.
    { split; [apply Z.div_le_lower_bound; lia|apply Z.div_lt_upper_bound; lia]. }
    split; [done|].
    rewrite (proj2 (Z.ltb_ge _ _) Hs1). by rewrite (proj2 (Z.ltb_lt _ _) (proj2 Hm)).
  - intros Hd.
    assert (3600 ≤ s)%Z as Hs1 by (apply Z.nlt_ge; rewrite <- Hlt; lia).
    assert (60 ≤ s / 60)%Z as Hm by (apply Z.div_le_lower_bound; lia).
    assert (s / 60 / 60 = s / 3600)%Z as Hdiv
      by (rewrite Z.div_div by lia; reflexivity).
    split; [apply Z.div_le_lower_bound; lia|].
    rewrite (proj2 (Z.ltb_ge s 60)) by lia.
    rewrite (proj2 (Z.ltb_ge _ _) Hm). by rewrite Hdiv.
  - intros Hd. assert (s = 0)%Z as Hs.
    { unfold s, Clock.round_seconds. replace (Z.max 0 (now - d)) with 0%Z by lia.
      reflexivity. }
    rewrite Hs. reflexivity.
Qed.

(** ** Slideshow *)

Section slideshow_facts.
Context {A : Type}.
Implicit Types l : list A.

Lemma modulus_nonempty l : l ≠ [] → Slideshow.modulus l = Z.of_nat (length l).
Proof.
  intros Hl. unfold Slideshow.modulus. destruct l; simpl in *; [done|lia].
Qed.

Lemma next_mod l i :
  l ≠ [] → (0 ≤ i)%Z → Slideshow.next l i = ((i + 1) mod Z.of_nat (length l))%Z.
Proof.
  intros Hl Hi. unfold Slideshow.next. rewrite modulus_nonempty by done.
  assert (0 < length l) by (destruct l; simpl; [done|lia]).
  apply Z.rem_mod_nonneg; lia.
Qed.

Lemma iter_next l i k :
  l ≠ [] → (0 ≤ i)%Z →
  Nat.iter k (Slideshow.next l) i = ((i + Z.of_nat k) mod Z.of_nat (length l))%Z ∨
  (k = 0 ∧ Nat.iter k (Slideshow.next l) i = i).
Proof.
  intros Hl Hi.
  assert (0 < length l) as Hlen by (destruct l; simpl; [done|lia]).
  induction k as [|k IH]; [by right|]. left. simpl.
  destruct IH as [IH|[-> IH]]; rewrite IH.
  - rewrite next_mod by (done || (apply Z.mod_pos_bound; lia)).
    rewrite Zplus_mod_idemp_l. f_equal. lia.
  - rewrite next_mod by done. f_equal.
Qed.

End slideshow_facts.

(** X8. On a non-empty list, with the index within the list, [prev] and
    [next] undo each other and keep the index within the list; [next] steps
    forward by one and wraps from the last camera to the first, [prev] steps
    back by one and wraps from the first to the last. *)
Theorem prev_next_inverse {A : Type} (l : list A) (i : Z) :
  l ≠ [] → (0 ≤ i < Z.of_nat (length l))%Z →
  let n := Z.of_nat (length l) in
  Slideshow.next l (Slideshow.prev l i) = i ∧
  Slideshow.prev l (Slideshow.next l i) = i ∧
  (0 ≤ Slideshow.prev l i < n)%Z ∧
  (0 ≤ Slideshow.next l i < n)%Z ∧
  Slideshow.next l i = (if (i =? n - 1)%Z then 0 else i + 1)%Z ∧
  Slideshow.prev l i = (if (i =? 0)%Z then n - 1 else i - 1)%Z.
Proof.
  intros Hl Hi n.
  assert (n = Z.of_nat (length l)) as Hn0 by done. clearbody n.
  rewrite <- Hn0 in Hi.
  assert (∀ j, (0 ≤ j < n)%Z →
    Slideshow.next l j = (if (j =? n - 1)%Z then 0 else j + 1)%Z) as Hnext.
  { intros j Hj. rewrite next_mod by (done || lia). rewrite <- Hn0.
    destruct (j =? n - 1)%Z eqn:Hlast.
    - apply Z.eqb_eq in Hlast. replace (j + 1)%Z with n by lia.
      apply Z_mod_same_full.
    - apply Z.eqb_neq in Hlast. apply Z.mod_small. lia. }
  assert (∀ j, (0 ≤ j < n)%Z →
    Slideshow.prev l j = (if (j =? 0)%Z then n - 1 else j - 1)%Z) as Hprev.
  { intros j Hj. unfold Slideshow.prev. rewrite modulus_nonempty by done. rewrite <- Hn0.
    rewrite Z.rem_mod_nonneg by lia.
    destruct (j =? 0)%Z eqn:Hfirst.
    - apply Z.eqb_eq in Hfirst. subst j.
      replace (0 - 1 + n)%Z with (n - 1)%Z by lia. apply Z.mod_small. lia.
    - apply Z.eqb_neq in Hfirst.
      replace (j - 1 + n)%Z with (j - 1 + 1 * n)%Z by lia.
      rewrite Z_mod_plus_full. apply Z.mod_small. lia. }
  assert (0 ≤ Slideshow.prev l i < n)%Z as Hp.
  { rewrite Hprev by done. destruct (i =? 0)%Z eqn:E; [lia|].
    apply Z.eqb_neq in E. lia. }
  assert (0 ≤ Slideshow.next l i < n)%Z as Hn.
  { rewrite Hnext by done. destruct (i =? n - 1)%Z eqn:E; [lia|].
    apply Z.eqb_neq in E. lia. }
  split; [|split; [|split; [exact Hp|split; [exact Hn|
    split; [by apply Hnext|by apply Hprev]]]]].
  - rewrite Hnext by done. rewrite (Hprev i Hi).
    destruct (i =? 0)%Z eqn:E.
    + apply Z.eqb_eq in E. rewrite Z.eqb_refl. lia.
    + apply Z.eqb_neq in E. rewrite (proj2 (Z.eqb_neq _ _)) by lia. lia.
  - rewrite Hprev by done. rewrite (Hnext i Hi).
    destruct (i =? n - 1)%Z eqn:E.
    + apply Z.eqb_eq in E. rewrite Z.eqb_refl. lia.
    + apply Z.eqb_neq in E. rewrite (proj2 (Z.eqb_neq _ _)) by lia. lia.
Qed.

(** X9. Advancing [k] times from index [i] of a non-empty list arrives at
    [(i + k) mod length]: after as many steps as the list is long the
    slideshow is back where it started, and every camera of the list is
    reached within that many steps. *)
Theorem autoplay_visits_all {A : Type} (l : list A) (i : Z) :
  l ≠ [] → (0 ≤ i < Z.of_nat (length l))%Z →
  (∀ k, Nat.iter k (Slideshow.next l) i
        = ((i + Z.of_nat k) mod Z.of_nat (length l))%Z) ∧
  Nat.iter (length l) (Slideshow.next l) i = i ∧
  (∀ j, (0 ≤ j < Z.of_nat (length l))%Z →
        ∃ k, k < length l ∧ Nat.iter k (Slideshow.next l) i = j ∧
             Slideshow.current l (Nat.iter k (Slideshow.next l) i)
             = l !! Z.to_nat j).
Proof.
  intros Hl Hi.
  assert (∀ k, Nat.iter k (Slideshow.next l) i
        = ((i + Z.of_nat k) mod Z.of_nat (length l))%Z) as Hiter.
  { intros k. destruct (iter_next l i k Hl) as [->|[-> ->]]; [lia|done|].
    simpl. rewrite Z.add_0_r. symmetry. apply Z.mod_small. lia. }
  split_and!; [done| |].
  - rewrite Hiter.
    replace (i + Z.of_nat (length l))%Z with (i + 1 * Z.of_nat (length l))%Z by lia.
    rewrite Z_mod_plus_full. apply Z.mod_small. lia.
  - intros j Hj.
    exists (Z.to_nat ((j - i) mod Z.of_nat (length l))).
    pose proof (Z.mod_pos_bound (j - i) (Z.of_nat (length l))) as Hb.
    assert (Nat.iter (Z.to_nat ((j - i) mod Z.of_nat (length l))) (Slideshow.next l) i = j)
      as Hj'.
    { rewrite Hiter. rewrite Z2Nat.id by lia.
      rewrite Zplus_mod_idemp_r. replace (i + (j - i))%Z with j by lia.
      apply Z.mod_small. lia. }
    split_and!; [lia|done|]. rewrite Hj'.
    unfold Slideshow.current. rewrite modulus_nonempty by done.
    rewrite Z.rem_small by lia. by rewrite (proj2 (Z.ltb_ge _ _)) by lia.
Qed.

(** X10. With an empty list there is no current camera at any index, the
    advance effect starts no timer whether playing or not, and [next] and
    [prev] leave the index at 0. *)
Theorem empty_list_idle {A : Type} (i d : Z) (playing : bool) :
  Slideshow.current (@nil A) i = None ∧
  Slideshow.dwellTimeout playing (Slideshow.current (@nil A) i) d = None ∧
  Slideshow.next (@nil A) i = 0%Z ∧
  Slideshow.prev (@nil A) i = 0%Z.
Proof.
  assert (Slideshow.current (@nil A) i = None) as Hcur.
  { unfold Slideshow.current, Slideshow.modulus. simpl.
    rewrite Z.rem_1_r. reflexivity. }
  rewrite Hcur. unfold Slideshow.dwellTimeout, Slideshow.next, Slideshow.prev,
    Slideshow.modulus. simpl. rewrite !Z.rem_1_r.
  by destruct playing.
Qed.

(** ** The advance timer *)

Section autoplay_facts.
Import Autoplay.
Local Open Scope Z_scope.

Lemma next_nonneg {A} (l : list A) i : 0 ≤ i → 0 ≤ Slideshow.next l i.
Proof.
  intros Hi. unfold Slideshow.next, Slideshow.modulus.
  apply Z.rem_nonneg; lia.
Qed.

Lemma prev_nonneg {A} (l : list A) i : 0 ≤ i → 0 ≤ Slideshow.prev l i.
Proof.
  intros Hi. unfold Slideshow.prev, Slideshow.modulus.
  apply Z.rem_nonneg; lia.
Qed.

Lemma current_nil {A} (i : Z) : Slideshow.current (@nil A) i = None.
Proof. unfold Slideshow.current. by destruct (_ <? _). Qed.

Lemma arm_Some v st t :
  arm v st = Some t →
  playing st = true ∧ is_Some (Slideshow.current (shown v) (index st)) ∧
  delay t = Z.max 3 (dwellSec v) * 1000 ∧ armed_on t = shown v.
Proof.
  unfold arm, Slideshow.dwellTimeout.
  destruct (playing st); simpl; [|done].
  destruct (Slideshow.current (shown v) (index st)) as [c|] eqn:Hc; simpl; [|done].
  intros [= <-]. eauto.
Qed.

Lemma settle_index v v' st st' : index (settle v v' st st') = index st'.
Proof. unfold settle. by destruct (decide _). Qed.

Lemma settle_playing v v' st st' : playing (settle v v' st st') = playing st'.
Proof. unfold settle. by destruct (decide _). Qed.

Lemma handle_index v st e :
  0 ≤ index st → 0 ≤ index (handle v st e).2.
Proof.
  intros Hi. destruct e as [| | | |v']; simpl; try done.
  - destruct (timer st); simpl; [by apply next_nonneg|done].
  - by apply next_nonneg.
  - by apply prev_nonneg.
  - unfold relist. by destruct (decide _).
Qed.

(** The timer [handle] leaves pending is the one that was pending. *)
Lemma handle_timer v st e t :
  timer (handle v st e).2 = Some t → timer st = Some t.
Proof.
  destruct e as [| | | |v']; simpl; try done.
  - destruct (timer st) as [t0|] eqn:Hs; simpl; [done|]. by rewrite Hs.
  - unfold relist. by destruct (decide _).
Qed.

Lemma reachable_inv v st :
  reachable v st →
  0 ≤ index st ∧
  ∀ t, timer st = Some t →
       playing st = true ∧ is_Some (Slideshow.current (shown v) (index st)) ∧
       delay t = Z.max 3 (dwellSec v) * 1000 ∧ armed_on t ≠ [].
Proof.
  assert (∀ v st t, arm v st = Some t →
            playing st = true ∧ is_Some (Slideshow.current (shown v) (index st)) ∧
            delay t = Z.max 3 (dwellSec v) * 1000 ∧ armed_on t ≠ []) as Harm.
  { intros v0 st0 t (Hp & Hc & Hd & Ha)%arm_Some. split_and!; try done.
    rewrite Ha. intros Hnil. rewrite Hnil, current_nil in Hc. by destruct Hc. }
  induction 1 as [v a|v st e v' st' _ [Hi Ht] He Hstep].
  - split; [done|]. intros t Ht. by apply (Harm v _ t).
  - unfold step in Hstep.
    pose proof (handle_index v st e Hi) as Hi'.
    pose proof (handle_timer v st e) as Ht'.
    destruct (handle v st e) as [v1 st1]. simpl in Hi', Ht'.
    injection Hstep as <- <-.
    split; [by rewrite settle_index|].
    unfold settle. destruct (decide (deps v1 st1 = deps v st)) as [Hd|Hd].
    + intros t Hs. destruct (Ht t (Ht' t Hs)) as (Hp & Hc & Hdl & Ha).
      unfold deps in Hd. injection Hd as Hp' Hi'' Hdw Hid.
      rewrite Hp', Hdw. split_and!; try done.
      destruct Hc as [c Hc]. rewrite Hc in Hid.
      destruct (Slideshow.current (shown v1) (index st1)); [eauto|done].
    + simpl. apply Harm.
Qed.

End autoplay_facts.

(** X18. In every state a mounted slideshow can reach, the index is not
    negative, and a pending advance timer means that the slideshow is
    playing and shows a camera; the timer's delay is [max(3, dwellSec)]
    seconds for the current dwell time, so at least 3000 ms, and when it
    fires the index becomes [(index + 1) mod n], within [0, n), where [n] is
    the length of the list the timer was started on. No timer is pending
    while paused or on an empty list. *)
Theorem pending_timer_invariant (v : Autoplay.View) (st : Autoplay.State) :
  Autoplay.reachable v st →
  (0 ≤ Autoplay.index st)%Z ∧
  (∀ t, Autoplay.timer st = Some t →
     Autoplay.playing st = true ∧
     is_Some (Slideshow.current (Autoplay.shown v) (Autoplay.index st)) ∧
     Autoplay.delay t = (Z.max 3 (Autoplay.dwellSec v) * 1000)%Z ∧
     (3000 ≤ Autoplay.delay t)%Z ∧
     Autoplay.armed_on t ≠ [] ∧
     let st' := (Autoplay.step v st Autoplay.Fire).2 in
     Autoplay.index st'
       = ((Autoplay.index st + 1) mod Z.of_nat (length (Autoplay.armed_on t)))%Z ∧
     (0 ≤ Autoplay.index st' < Z.of_nat (length (Autoplay.armed_on t)))%Z) ∧
  (Autoplay.playing st = false → Autoplay.timer st = None) ∧
  (Autoplay.shown v = [] → Autoplay.timer st = None).
Proof.
  intros [Hi Ht]%reachable_inv. split; [done|].
  split; [|split].
  - intros t Hs. destruct (Ht t Hs) as (Hp & Hc & Hd & Ha).
    do 5 (split; [done || lia|]).
    unfold Autoplay.step. simpl. rewrite Hs. simpl.
    rewrite settle_index. simpl. rewrite next_mod by done.
    split; [done|]. apply Z.mod_pos_bound.
    destruct (Autoplay.armed_on t); simpl; [done|lia].
  - intros Hp. destruct (Autoplay.timer st) as [t|] eqn:Hs; [|done].
    destruct (Ht t eq_refl) as (Hp' & _). congruence.
  - intros Hv. destruct (Autoplay.timer st) as [t|] eqn:Hs; [|done].
    destruct (Ht t eq_refl) as (_ & Hc & _). rewrite Hv, current_nil in Hc.
    by destruct Hc.
Qed.

(** ** Filtering *)

Lemma filter_idempotent {A : Type} (f : A → bool) (l : list A) :
  List.filter f (List.filter f l) = List.filter f l.
Proof.
  induction l as [|x l IH]; simpl; [done|].
  destruct (f x) eqn:Hx; simpl; [|done]. by rewrite Hx, IH.
Qed.

Lemma filter_sublist {A : Type} (f : A → bool) (l : list A) :
  sublist (List.filter f l) l.
Proof.
  induction l as [|x l IH]; simpl; [constructor|].
  destruct (f x); by constructor.
Qed.

Lemma filter_sublist_mono {A : Type} (f g : A → bool) (l : list A) :
  (∀ x, f x = true → g x = true) →
  sublist (List.filter f l) (List.filter g l).
Proof.
  intros Hfg. induction l as [|x l IH]; simpl; [constructor|].
  destruct (f x) eqn:Hf.
  - rewrite (Hfg x Hf). by constructor.
  - destruct (g x); [by constructor|done].
Qed.

(** X11. Filtering again with the same region and query changes nothing;
    the playable list is a sub-list of the camera list, in the same order;
    and selecting a region only removes records from what the same query
    gives with all regions. *)
Theorem filtered_idempotent_sublist `{Platform} (cs : list CameraRecord)
    (region_ query : string) :
  filtered (filtered cs region_ query) region_ query = filtered cs region_ query ∧
  sublist (filtered cs region_ query) cs ∧
  sublist (filtered cs region_ query) (filtered cs "" query) ∧
  length (filtered cs region_ query) ≤ length cs.
Proof.
  unfold filtered. split_and!.
  - apply filter_idempotent.
  - apply filter_sublist.
  - apply filter_sublist_mono. intros c. unfold keep. simpl.
    rewrite !andb_true_iff. tauto.
  - apply sublist_length, filter_sublist.
Qed.

(** ** Feed loader *)

Section loader_facts.
Context `{Platform}.
Import Feed.

Lemma try_load_cases net :
  match answer_geojson net with
  | Rejected => try_load net = ([geojson], None)
  | Resolved r =>
      if ok r
      then (try_load net).1 = [geojson]
      else (try_load net).1 = [geojson; csv]
  end.
Proof.
  unfold try_load, fetch. destruct (answer_geojson net) as [|r]; simpl; [done|].
  destruct (ok r); simpl.
  - destruct (body r) as [gj|]; simpl; [|done].
    by destruct (mapM feature_camera (default [] (features gj))).
  - destruct (answer_csv net) as [|res]; simpl; [done|].
    destruct (ok res); simpl; [|done].
    destruct (body res) as [text|]; simpl; [|done].
    by destruct (mapM row_camera
                   (Papa_parse text {| header := true; skipEmptyLines := true |})).
Qed.

Lemma or_else_no_number a b :
  (∀ n, a ≠ Some (VNum n)) → (∀ n, b ≠ Some (VNum n)) →
  ∀ n, Js.or_else a b ≠ Some (VNum n).
Proof.
  unfold Js.or_else. intros Ha Hb. destruct a as [v|]; [|done].
  by destruct (Js.truthy v).
Qed.

Lemma trimmed_no_number v : (∀ n, v ≠ Some (VNum n)) → is_Some (trimmed v).
Proof.
  intros Hv. destruct v as [[s|n]|]; simpl; eauto. by destruct (Hv n).
Qed.

Lemma row_props_no_number (row : gmap string string) k n :
  (VStr <$> row) !! k ≠ Some (VNum n).
Proof.
  rewrite lookup_fmap. by destruct (row !! k).
Qed.

Lemma row_camera_total (row : gmap string string) : is_Some (row_camera row).
Proof.
  unfold row_camera, normalizeCamera. cbn [props].
  repeat match goal with
  | |- context [trimmed ?v] =>
      let Hs := fresh in
      assert (is_Some (trimmed v)) as [? Hs]
        by (apply trimmed_no_number; repeat apply or_else_no_number;
            intros ?; apply row_props_no_number);
      rewrite Hs; clear Hs; simpl
  end.
  eauto.
Qed.

Lemma trimmed_number n : n ≠ 0%Z → trimmed (Some (VNum n)) = None.
Proof.
  intros Hn. simpl. by rewrite (proj2 (Z.eqb_neq _ _) Hn).
Qed.

End loader_facts.

(** X12. A load sends the structured request first and at most one more,
    the delimited-text request, which is sent exactly when the first
    answer has a status outside 2xx. A cancelled load leaves the cameras and
    regions as they were (only [loading] and [error] were reset when it
    started). A load that is not cancelled ends with [loading] off and
    either no error and the regions of the new camera list, or the error
    message with the previous cameras and regions untouched. *)
Theorem load_requests_and_state `{Platform} (net : Network) (cancelled : bool)
    (st : CamerasState) :
  let sent := (Feed.load net cancelled st).1 in
  let st' := (Feed.load net cancelled st).2 in
  (sent = [geojson] ∨ sent = [geojson; csv]) ∧
  (csv ∈ sent ↔ ∃ r, answer_geojson net = Resolved r ∧ ok r = false) ∧
  (cancelled = true →
     st' = {| cameras := cameras st; regions := regions st;
              loading := true; error := "" |}) ∧
  (cancelled = false →
     loading st' = false ∧
     ((error st' = "" ∧ regions st' = Feed.regions_of (cameras st')) ∨
      st' = Feed.failed st)).
Proof.
  intros sent st'. unfold sent, st', Feed.load.
  pose proof (try_load_cases net) as Hcases.
  destruct (Feed.try_load net) as [tr res] eqn:Htry. simpl.
  assert (tr = [geojson] ∧ ¬ (∃ r, answer_geojson net = Resolved r ∧ ok r = false) ∨
          tr = [geojson; csv] ∧ ∃ r, answer_geojson net = Resolved r ∧ ok r = false)
    as Htr.
  { destruct (answer_geojson net) as [|r].
    - left. split; [congruence|]. by intros (r & [=] & _).
    - destruct (ok r) eqn:Hok; simpl in Hcases; subst tr.
      + left. split; [done|]. intros (r' & [= <-] & Hr'). congruence.
      + right. eauto. }
  split_and!.
  - destruct Htr as [[-> _]|[-> _]]; auto.
  - destruct Htr as [[-> Hno]|[-> Hyes]].
    + split; [|done]. by intros [=]%list_elem_of_singleton.
    + split; [done|]. intros _. apply list_elem_of_further, list_elem_of_here.
  - by intros ->.
  - intros ->. destruct res as [items|]; simpl; auto.
Qed.

Section csv_facts.
Context `{Platform}.

Lemma row_camera_region (row : gmap string string) (c : CameraRecord) :
  Feed.row_camera row = Some c →
  region c = trim (default "" (row !! "NomRegionDiffusion")) ∧
  lat c = CStr <$> row !! "lat" ∧ lon c = CStr <$> row !! "lon".
Proof.
  unfold Feed.row_camera, normalizeCamera. cbn [props r_lat r_lon].
  assert (trimmed ((VStr <$> row) !! "NomRegionDiffusion")
          = Some (trim (default "" (row !! "NomRegionDiffusion")))) as ->.
  { rewrite lookup_fmap. by destruct (row !! "NomRegionDiffusion"). }
  repeat match goal with
  | |- context [trimmed ?v] => destruct (trimmed v); simpl; [|done]
  end.
  by intros [= <-].
Qed.

End csv_facts.

(** X13. Rows of the delimited-text feed never make [normalizeCamera]
    throw. So when the structured endpoint answers outside 2xx and the
    delimited-text endpoint answers 2xx with a readable body, the load
    succeeds with exactly one camera per parsed row, in row order, whose
    region is the trimmed [NomRegionDiffusion] column (empty when the column
    is missing). *)
Theorem csv_rows_always_load `{Platform} (net : Network) (st : CamerasState)
    (r : Response GeoJson) (res : Response string) (text : string) :
  answer_geojson net = Resolved r → ok r = false →
  answer_csv net = Resolved res → ok res = true → body res = Some text →
  let rows := Papa_parse text {| header := true; skipEmptyLines := true |} in
  let st' := (Feed.load net false st).2 in
  error st' = "" ∧ loading st' = false ∧
  length (cameras st') = length rows ∧
  Forall2 (λ row c, Feed.row_camera row = Some c ∧
                    region c = trim (default "" (row !! "NomRegionDiffusion")))
          rows (cameras st').
Proof.
  intros Hr Hok Hres Hokc Hbody rows st'.
  assert (Feed.try_load net = ([geojson; csv], mapM Feed.row_camera rows)) as Hfb.
  { unfold Feed.try_load, Feed.fetch. rewrite Hr. simpl. rewrite Hok. simpl.
    rewrite Hres. simpl. rewrite Hokc, Hbody. simpl. fold rows.
    by destruct (mapM Feed.row_camera rows). }
  destruct (mapM Feed.row_camera rows) as [items|] eqn:Hmap.
  - unfold st', Feed.load. rewrite Hfb. simpl.
    pose proof (mapM_Some_1 _ _ _ Hmap) as Hall.
    split_and!; [done|done|by rewrite <- (length_mapM _ _ _ Hmap)|].
    eapply Forall2_impl; [exact Hall|]. simpl. intros row c Hc.
    split; [done|]. by apply row_camera_region.
  - assert (is_Some (mapM Feed.row_camera rows)) as [? Hs]; [|congruence].
    apply mapM_is_Some_2, Forall_forall. intros row _. apply row_camera_total.
Qed.

(** X14. One feature of the structured feed whose description, start date,
    region, border or bridge property is a non-zero number makes
    [normalizeCamera] throw, and with it the whole load fail: a single
    request, the error message, and the previous cameras and regions
    kept. *)
Theorem malformed_feature_fails_load `{Platform} (net : Network) (st : CamerasState)
    (r : Response GeoJson) (gj : GeoJson) (f : Feature) (m : gmap string JsVal)
    (k : string) (n : Z) :
  answer_geojson net = Resolved r → ok r = true → body r = Some gj →
  f ∈ default [] (features gj) →
  properties f = Some m →
  k ∈ ["DescriptionLocalisationFr"; "DescriptionLocalisationEn";
       "DateDebutDiffusion"; "NomRegionDiffusion";
       "NomPosteFrontalier"; "NomPontFrontalier"] →
  m !! k = Some (VNum n) → n ≠ 0%Z →
  Feed.feature_camera f = None ∧
  Feed.load net false st = ([geojson], Feed.failed st).
Proof.
  intros Hr Hok Hbody Hf Hm Hk Hnum Hn.
  assert (Feed.feature_camera f = None) as Hnone.
  { unfold Feed.feature_camera, normalizeCamera. rewrite Hm. cbn [props]. cbv zeta.
    change (default ∅ (Some m)) with m.
    pose proof (trimmed_number n Hn) as Ht.
    repeat (apply elem_of_cons in Hk as [->|Hk]);
      [..|by apply elem_of_nil in Hk];
      rewrite Hnum, Ht;
      repeat match goal with
      | |- context [trimmed (m !! ?key)] => destruct (trimmed (m !! key)); simpl; try done
      end. }
  split; [done|].
  unfold Feed.load, Feed.try_load, Feed.fetch. rewrite Hr. simpl.
  rewrite Hok, Hbody. simpl.
  destruct (mapM Feed.feature_camera (default [] (features gj))) as [items|] eqn:Hmap;
    [|done].
  assert (is_Some (mapM Feed.feature_camera (default [] (features gj)))) as Hs by eauto.
  apply mapM_is_Some_1 in Hs. rewrite Forall_forall in Hs.
  destruct (Hs f Hf) as [c Hc]. simpl in Hc. congruence.
Qed.

(** ** The development proxy *)

Lemma prefix_app (p r : string) : String.prefix p (p +:+ r) = true.
Proof.
  induction p as [|a p IH]; [apply prefix_empty|].
  rewrite append_cons. simpl. by destruct (ascii_dec a a).
Qed.

Lemma drop_prefix_app (p r : string) : Proxy.drop_prefix p (p +:+ r) = Some r.
Proof.
  induction p as [|a p IH]; [done|].
  rewrite append_cons. simpl. by rewrite Ascii.eqb_refl.
Qed.

Lemma origin_local (h : string) :
  h = "localhost" ∨ Proxy.endsWith ".local" h = true →
  Proxy.origin None (Some h) = "/q511".
Proof.
  unfold Proxy.origin. intros [-> | ->]; [done|]. by rewrite orb_true_r.
Qed.

(** A URL built on the proxy prefix is forwarded to the URL built on the
    upstream site. *)
Lemma forward_salted (n : nat) (path : string) :
  Proxy.forward (withSalt n ("/q511" +:+ path))
  = Some (withSalt n (Proxy.upstream +:+ path)).
Proof.
  unfold withSalt.
  rewrite (proj2 (truthy_str_true ("/q511" +:+ path))) by done.
  rewrite (proj2 (truthy_str_true (Proxy.upstream +:+ path))) by done.
  rewrite !includes_char_app.
  change (Js.includes "?" "/q511") with false.
  change (Js.includes "?" Proxy.upstream) with false.
  rewrite !orb_false_l, !append_assoc.
  unfold Proxy.forward, Proxy.rewrite.
  by rewrite prefix_app, drop_prefix_app.
Qed.

(** X15. On a local host ([localhost] or a name ending in [.local]) without
    a build-time override, [ORIGIN] is the proxy prefix [/q511], and the
    development server forwards each constructed media URL (snapshot path,
    alternate snapshot, stream manifest) to exactly the URL a build on the
    upstream origin requests: the prefix is stripped and the cache-bust
    parameter is carried over. *)
Theorem dev_proxy_reaches_upstream `{Platform} (c : CameraRecord) (n : nat)
    (v : Variants) (h : string) :
  ORIGIN = Proxy.origin None (Some h) →
  h = "localhost" ∨ Proxy.endsWith ".local" h = true →
  imgDirect c = "" →
  buildVariants (Some c) n = Some v →
  ORIGIN = "/q511" ∧
  Proxy.forward (v_snap v)
    = Some (withSalt n (Proxy.upstream +:+ "/Images/Cameras/Quebec/cam/" +:+
                        v_id v +:+ ".jpg")) ∧
  Proxy.forward (v_jpg v)
    = Some (withSalt n (Proxy.upstream +:+ "/Carte/Fenetres/camera.ashx?id=" +:+
                        v_id v +:+ "&format=jpg")) ∧
  Proxy.forward (v_m3u8 v)
    = Some (withSalt n (Proxy.upstream +:+ "/Carte/Fenetres/camera.ashx?id=" +:+
                        v_id v +:+ "&format=m3u8")).
Proof.
  intros Ho Hh Himg (c' & [= <-] & _ & _ & ->)%buildVariants_Some.
  rewrite (origin_local h Hh) in Ho.
  cbn [v_id v_snap v_jpg v_m3u8]. unfold primarySnap.
  apply truthy_str_false in Himg. rewrite Himg, Ho.
  split_and!; [done|apply forward_salted..].
Qed.

(** ** Shuffling: every order can come out *)

Section shuffle_reach.
Context {A : Type}.
Implicit Types l front back : list A.
Import Shuffle.

Lemma loop_by_ext js js' i (arr : list (option A)) :
  (∀ x, x ≤ i → js x = js' x) → loop_by js i arr = loop_by js' i arr.
Proof.
  revert arr. induction i as [|i IH]; intros arr Hext; simpl; [done|].
  rewrite (Hext (S i)) by lia. apply IH. intros x Hx. apply Hext. lia.
Qed.

(** The loop of the code is the loop on the indices it draws. *)
Lemma loop_as_loop_by random k i (arr : list (option A)) :
  loop random k i arr
  = loop_by (λ i', Z.to_nat (pick random (k + (i - i')) i')) i arr.
Proof.
  revert k arr. induction i as [|i IH]; intros k arr; simpl; [done|].
  rewrite Nat.sub_diag, Nat.add_0_r. rewrite IH.
  apply loop_by_ext. intros x Hx. do 2 f_equal. lia.
Qed.

Lemma loop_by_permutes js i l :
  (∀ x, js x ≤ x) → i < length l ∨ i = 0 →
  ∃ l', loop_by js i (Some <$> l) = Some <$> l' ∧ l' ≡ₚ l.
Proof.
  intros Hjs. revert l. induction i as [|i IH]; intros l Hi; simpl.
  { by exists l. }
  destruct Hi as [Hi|]; [|done].
  pose proof (Hjs (S i)) as Hj.
  destruct (swap_in_range l (S i) (js (S i))) as (l1 & -> & Hperm & Hlen); [lia..|].
  destruct (IH l1) as (l' & -> & Hperm'); [lia|].
  exists l'. split; [done|]. by etrans.
Qed.

Lemma swap_fmap_Some l i j x y :
  l !! i = Some x → l !! j = Some y →
  swap (Some <$> l) i j = Some <$> <[j:=x]> (<[i:=y]> l).
Proof.
  intros Hx Hy. unfold swap. rewrite !get_fmap_Some, Hx, Hy.
  rewrite set_fmap_Some by (by eapply lookup_lt_Some).
  rewrite set_fmap_Some by (rewrite length_insert; by eapply lookup_lt_Some).
  done.
Qed.

(** Swapping the last element of [front] with the one at [j] puts the
    latter last and permutes the rest. *)
Lemma swap_to_last front back m j x y :
  length front = S m → front !! m = Some x → front !! j = Some y →
  ∃ rest, length rest = m ∧
          <[j:=x]> (<[m:=y]> (front ++ back)) = rest ++ y :: back ∧
          rest ++ [y] ≡ₚ front.
Proof.
  intros Hlen Hx Hy.
  destruct front as [|x' f0 _] using rev_ind; [done|].
  rewrite length_app in Hlen. simpl in Hlen.
  assert (length f0 = m) as Hf0 by lia.
  rewrite lookup_app_r in Hx by lia.
  replace (m - length f0) with 0 in Hx by lia. injection Hx as ->.
  assert (<[m:=y]> ((f0 ++ [x]) ++ back) = f0 ++ y :: back) as Hins.
  { rewrite <- app_assoc. rewrite insert_app_r_alt by lia.
    by replace (m - length f0) with 0 by lia. }
  rewrite Hins.
  destruct (decide (j < m)) as [Hj|Hj].
  - rewrite lookup_app_l in Hy by lia.
    exists (<[j:=x]> f0). split_and!.
    + by rewrite length_insert.
    + by rewrite insert_app_l by lia.
    + pose proof (Permutation_insert_swap (f0 ++ [x]) m j x y) as Hp.
      rewrite insert_app_r_alt in Hp by lia.
      replace (m - length f0) with 0 in Hp by lia. simpl in Hp.
      rewrite insert_app_l in Hp by lia.
      apply Hp.
      * rewrite lookup_app_r by lia. by replace (m - length f0) with 0 by lia.
      * by rewrite lookup_app_l by lia.
  - assert (j = m) as ->.
    { apply lookup_lt_Some in Hy. rewrite length_app in Hy. simpl in Hy. lia. }
    rewrite lookup_app_r in Hy by lia.
    replace (m - length f0) with 0 in Hy by lia. injection Hy as ->.
    exists f0. split_and!; [done| |done].
    rewrite insert_app_r_alt by lia.
    by replace (m - length f0) with 0 by lia.
Qed.

Lemma loop_by_reaches i : ∀ front tfront back,
  length front = S i → tfront ≡ₚ front →
  ∃ js, (∀ x, js x ≤ x) ∧
        loop_by js i (Some <$> (front ++ back)) = Some <$> (tfront ++ back).
Proof.
  induction i as [|i IH]; intros front tfront back Hlen Hperm.
  - exists (λ _, 0). split; [intros x; lia|]. simpl.
    destruct front as [|x [|??]]; try done.
    by apply Permutation_singleton_r in Hperm as ->.
  - destruct tfront as [|y tf _] using rev_ind.
    { apply Permutation_nil_l in Hperm. by subst front. }
    assert (y ∈ front) as Hy by (rewrite <- Hperm; set_solver).
    apply list_elem_of_lookup in Hy as [j Hj].
    pose proof (lookup_lt_Some _ _ _ Hj) as Hjlt.
    destruct (lookup_lt_is_Some_2 front (S i)) as [x Hx]; [lia|].
    destruct (swap_to_last front back (S i) j x y Hlen Hx Hj)
      as (rest & Hrest & Hswap & Hprest).
    destruct (IH rest tf (y :: back) Hrest) as (js' & Hrange & Hloop).
    { apply (Permutation_app_inv_r [y]). by rewrite Hprest. }
    exists (λ x, if decide (x = S i) then j else js' x).
    split.
    + intros x0. destruct (decide (x0 = S i)); [lia|apply Hrange].
    + simpl. rewrite decide_True by done.
      rewrite (swap_fmap_Some (front ++ back) (S i) j x y)
        by (by rewrite lookup_app_l by lia).
      rewrite Hswap.
      rewrite (loop_by_ext _ js') by (intros x0 ?; rewrite decide_False by lia; done).
      rewrite Hloop. by rewrite <- app_assoc.
Qed.

End shuffle_reach.

(** X16. In terms of the indices [j] drawn in the rounds of the loop (not of
    the random numbers they are computed from): [useShuffle] is the loop on
    the indices it draws; whenever the index of each round [i] is at most
    [i], the loop returns a permutation of the list without holes; and every
    permutation of the list is returned for some such choice of indices. *)
Theorem every_order_from_some_indices {A : Type} (l : list A) :
  let n := length l - 1 in
  (∀ random,
     Shuffle.useShuffle random l true
     = Shuffle.loop_by (λ i, Z.to_nat (Shuffle.pick random (n - i) i)) n (Some <$> l)) ∧
  (∀ js, (∀ i, js i ≤ i) →
     ∃ l', Shuffle.loop_by js n (Some <$> l) = Some <$> l' ∧ l' ≡ₚ l) ∧
  (∀ l', l' ≡ₚ l →
     ∃ js, (∀ i, js i ≤ i) ∧ Shuffle.loop_by js n (Some <$> l) = Some <$> l').
Proof.
  intros n. split_and!.
  - intros random. unfold Shuffle.useShuffle. simpl. rewrite length_fmap.
    fold n. by rewrite loop_as_loop_by.
  - intros js Hjs. apply loop_by_permutes; [done|].
    unfold n. destruct l; simpl; [by right|left; lia].
  - intros l' Hperm. destruct l as [|x l].
    + apply Permutation_nil_r in Hperm as ->.
      exists (λ _, 0). split; [intros i; lia|done].
    + unfold n. simpl. rewrite Nat.sub_0_r.
      destruct (loop_by_reaches (length l) (x :: l) l' [] eq_refl Hperm)
        as (js & Hrange & Hloop).
      rewrite !app_nil_r in Hloop. by exists js.
Qed.

(** ** Evaluations of the further properties *)

Section evaluation_more.
#[local] Existing Instance Browser.browser.

Lemma variants_exist_iff_id_witness :
  buildVariants (Some Samples.cam_noid) 5 = None ∧
  (∀ v, buildVariants (Some Samples.cam42) 5 = Some v → v_id v ≠ "").
Proof.
  destruct (variants_exist_iff_id (Some Samples.cam_noid) 5) as (Hnone & _ & _).
  destruct (variants_exist_iff_id (Some Samples.cam42) 5) as (_ & _ & Hsome).
  split.
  - apply Hnone. intros c [= <-]. reflexivity.
  - intros v Hv. by destruct (Hsome v Hv).
Defined.

Lemma salt_distinguishes_urls_witness :
  ∃ v w, buildVariants (Some Samples.cam42) 0 = Some v ∧
         buildVariants (Some Samples.cam42) 1 = Some w ∧
         0 ≠ 1 ∧ v_snap v ≠ v_snap w.
Proof.
  destruct (buildVariants (Some Samples.cam42) 0) as [v|] eqn:Hv; [|discriminate Hv].
  destruct (buildVariants (Some Samples.cam42) 1) as [w|] eqn:Hw; [|discriminate Hw].
  exists v, w. assert (0 ≠ 1) as Hne by lia.
  destruct (salt_distinguishes_urls (Some Samples.cam42) 0 1 v w Hv Hw Hne)
    as (_ & Hsnap & _).
  done.
Defined.

Lemma alternate_source_after_failure_witness :
  let p := Samples.pane Samples.cam42 false in
  let s := MediaPane.initial (Some Samples.cam42) false in
  (memo s = Some Samples.cam42 ∧ extractIdFromFenetre (url Samples.cam42) ≠ "" ∧
   mode s = snap ∧ dead s = false) ∧
  MediaPane.img_src p (MediaPane.step p s MediaPane.ImgError).2
    = Some "https://www.quebec511.info/Carte/Fenetres/camera.ashx?id=42&format=jpg&_rs=0".
Proof.
  intros p s.
  assert (extractIdFromFenetre (url Samples.cam42) ≠ "") as Hid
    by (vm_compute; discriminate).
  split; [done|].
  destruct (alternate_source_after_failure p s Samples.cam42 eq_refl Hid eq_refl eq_refl)
    as (_ & Halt & _).
  rewrite Halt. reflexivity.
Defined.

Lemma reachable_states_consistent_witness :
  let p := Samples.pane Samples.cam42 false in
  let s := MediaPane.onSnapError (MediaPane.onSnapError (MediaPane.initial (Some Samples.cam42) false)) in
  Run.reachable p s ∧ dead s = true ∧ MediaPane.status p s = UNAVAILABLE.
Proof.
  intros p s.
  assert (Run.reachable p s) as Hreach.
  { eapply (Run.reach_step p _ MediaPane.ImgError);
      [eapply (Run.reach_step p _ MediaPane.ImgError);
         [apply Run.reach_mount; by eexists|reflexivity|discriminate|reflexivity]
      |reflexivity|discriminate|reflexivity]. }
  split; [exact Hreach|]. split; [reflexivity|].
  destruct (reachable_states_consistent p s Hreach) as (_ & _ & Hbadge & _).
  by apply Hbadge.
Defined.

Lemma first_load_time_kept_witness :
  let p := Samples.pane Samples.cam42 false in
  let es := [MediaPane.RefreshTick; MediaPane.ImgLoad 9000; MediaPane.ImgError] in
  Forall (λ e, ∀ q, e ≠ MediaPane.Render q) es ∧
  timeInfo (Run.exec p (MediaPane.setLoadedNow 1000 (MediaPane.initial (Some Samples.cam42) false)) es).2
    = {| source := "Local"; date := Some 1000%Z |}.
Proof.
  intros p es.
  assert (Forall (λ e, ∀ q, e ≠ MediaPane.Render q) es) as Hes
    by (repeat constructor; discriminate).
  split; [exact Hes|].
  destruct (first_load_time_kept p (MediaPane.initial (Some Samples.cam42) false) 1000 es Hes)
    as (Hfirst & _ & _ & _ & _ & _ & Hkept).
  rewrite Hkept. by apply Hfirst.
Defined.

Lemma live_edge_interval_witness :
  let p := Samples.pane Samples.cam42 true in
  let s := MediaPane.initial (Some Samples.cam42) true in
  MediaPane.liveInterval p s = Some 5000%Z ∧
  MediaPane.refreshInterval p s = None ∧
  salt (MediaPane.step p s MediaPane.LiveTick).2 = 1.
Proof.
  intros p s.
  destruct (live_edge_interval p s) as (_ & Hlive & _).
  destruct (Hlive 5000%Z eq_refl) as (_ & _ & _ & _ & _ & Hsalt & _).
  split; [reflexivity|]. split; [reflexivity|]. exact Hsalt.
Defined.

Lemma rel_units_witness :
  (59500 ≤ 125000 - 0 < 3599500)%Z ∧
  Clock.rel 125000 {| source := "Local"; date := Some 0%Z |} = "2m ago" ∧
  Clock.rel 59499 {| source := "Local"; date := Some 0%Z |} = "59s ago" ∧
  Clock.rel 59500 {| source := "Local"; date := Some 0%Z |} = "1m ago".
Proof.
  assert (59500 ≤ 125000 - 0 < 3599500)%Z as Hm by lia.
  split; [exact Hm|].
  destruct (rel_units 125000 0 "Local") as (_ & _ & _ & Hmin & _).
  destruct (Hmin Hm) as [_ ->]. repeat split.
Defined.

Lemma prev_next_inverse_witness :
  let l := [Samples.cam42; Samples.cam7_direct; Samples.cam_noid] in
  (l ≠ [] ∧ (0 ≤ 0 < Z.of_nat (length l))%Z) ∧
  Slideshow.prev l 0 = 2%Z ∧
  Slideshow.next l (Slideshow.prev l 0) = 0%Z.
Proof.
  intros l. assert (l ≠ []) as Hl by done.
  assert (0 ≤ 0 < Z.of_nat (length l))%Z as Hi by (simpl; lia).
  destruct (prev_next_inverse l 0 Hl Hi) as (Hinv & _ & _ & _ & _ & Hprev).
  split; [done|]. split; [exact Hprev|exact Hinv].
Defined.

Lemma autoplay_visits_all_witness :
  let l := [Samples.cam42; Samples.cam7_direct; Samples.cam_noid] in
  (l ≠ [] ∧ (0 ≤ 1 < Z.of_nat (length l))%Z) ∧
  Nat.iter 3 (Slideshow.next l) 1%Z = 1%Z ∧
  ∃ k, k < 3 ∧ Nat.iter k (Slideshow.next l) 1%Z = 0%Z.
Proof.
  intros l. assert (l ≠ []) as Hl by done.
  assert (0 ≤ 1 < Z.of_nat (length l))%Z as Hi by (simpl; lia).
  destruct (autoplay_visits_all l 1 Hl Hi) as (_ & Hcycle & Hall).
  split; [done|]. split; [exact Hcycle|].
  destruct (Hall 0%Z) as (k & Hk & Hj & _); [simpl; lia|]. by exists k.
Defined.

Lemma load_requests_and_state_witness :
  (Feed.load Samples.net_503 false Feed.initial).1 = [geojson; csv] ∧
  loading (Feed.load Samples.net_503 false Feed.initial).2 = false ∧
  cameras (Feed.load Samples.net_up true Feed.initial).2 = [].
Proof.
  destruct (load_requests_and_state Samples.net_503 false Feed.initial)
    as (_ & _ & _ & Hdone).
  destruct (load_requests_and_state Samples.net_up true Feed.initial)
    as (_ & _ & Hcancel & _).
  split; [reflexivity|]. split.
  - by destruct (Hdone eq_refl).
  - by rewrite (Hcancel eq_refl).
Defined.

Lemma csv_rows_always_load_witness :
  ∃ r res text,
    answer_geojson Samples.net_503 = Resolved r ∧ ok r = false ∧
    answer_csv Samples.net_503 = Resolved res ∧ ok res = true ∧
    body res = Some text ∧
    length (Papa_parse text {| header := true; skipEmptyLines := true |}) = 2 ∧
    length (cameras (Feed.load Samples.net_503 false Feed.initial).2) = 2.
Proof.
  eexists _, _, _.
  split; [reflexivity|]. split; [reflexivity|]. split; [reflexivity|].
  split; [reflexivity|]. split; [reflexivity|]. split; [reflexivity|].
  destruct (csv_rows_always_load Samples.net_503 Feed.initial _ _ _
              eq_refl eq_refl eq_refl eq_refl eq_refl) as (_ & _ & Hlen & _).
  rewrite Hlen. reflexivity.
Defined.

Lemma malformed_feature_fails_load_witness :
  let m : gmap string JsVal :=
    {[ "NomRegionDiffusion" := VNum 7;
       "URL_FLUX_DONNEE" := VStr (Samples.viewer "?id=42") ]} in
  let f := {| properties := Some m; coordinates := None |} in
  let gj := {| features := Some [Samples.feature 3042 (Some "Outaouais")
                                   (Samples.viewer "?id=42"); f] |} in
  let net := {| answer_geojson :=
                  Resolved {| ok := true; http_status := 200; body := Some gj |};
                answer_csv := Samples.csv_up |} in
  m !! "NomRegionDiffusion" = Some (VNum 7) ∧
  Feed.load net false Feed.initial = ([geojson], Feed.failed Feed.initial).
Proof.
  intros m f gj net.
  assert (m !! "NomRegionDiffusion" = Some (VNum 7)) as Hm by reflexivity.
  split; [exact Hm|].
  refine (proj2 (malformed_feature_fails_load net Feed.initial _ gj f m
                   "NomRegionDiffusion" 7 eq_refl eq_refl eq_refl _ eq_refl _ Hm _)).
  - apply list_elem_of_further, list_elem_of_here.
  - do 3 apply list_elem_of_further. apply list_elem_of_here.
  - lia.
Defined.

Lemma dev_proxy_reaches_upstream_witness :
  ∃ v, @buildVariants Proxy.dev (Some Samples.cam42) 3 = Some v ∧
       Proxy.endsWith ".local" "atelier.local" = true ∧
       v_snap v = "/q511/Images/Cameras/Quebec/cam/42.jpg?_rs=3" ∧
       Proxy.forward (v_snap v)
         = Some "https://www.quebec511.info/Images/Cameras/Quebec/cam/42.jpg?_rs=3".
Proof.
  destruct (@buildVariants Proxy.dev (Some Samples.cam42) 3) as [v|] eqn:Hv;
    [|discriminate Hv].
  exists v. split; [done|]. split; [reflexivity|].
  destruct (@dev_proxy_reaches_upstream Proxy.dev Samples.cam42 3 v "localhost"
              eq_refl (or_introl eq_refl) eq_refl Hv) as (_ & Hsnap & _).
  rewrite Hsnap. injection Hv as <-. split; reflexivity.
Defined.

Lemma every_order_from_some_indices_witness :
  [3; 1; 2] ≡ₚ [1; 2; 3] ∧
  ∃ js, (∀ i, js i ≤ i) ∧
        Shuffle.loop_by js 2 (Some <$> [1; 2; 3]) = [Some 3; Some 1; Some 2].
Proof.
  assert ([3; 1; 2] ≡ₚ [1; 2; 3]) as Hperm.
  { change [3; 1; 2] with ([3] ++ [1; 2]). change [1; 2; 3] with ([1; 2] ++ [3]).
    apply Permutation_app_comm. }
  split; [exact Hperm|].
  destruct (every_order_from_some_indices [1; 2; 3]) as (_ & _ & Hall).
  exact (Hall [3; 1; 2] Hperm).
Defined.

Lemma pending_timer_invariant_witness :
  let v := {| Autoplay.shown := [Samples.cam42; Samples.cam7_direct; Samples.cam_noid];
              Autoplay.dwellSec := 1 |} in
  let st := Autoplay.mount v true in
  Autoplay.reachable v st ∧
  ∃ t, Autoplay.timer st = Some t ∧ Autoplay.delay t = 3000%Z ∧
       Autoplay.index (Autoplay.step v st Autoplay.Fire).2 = 1%Z.
Proof.
  intros v st.
  assert (Autoplay.reachable v st) as Hreach by apply Autoplay.reach_mount.
  split; [exact Hreach|].
  destruct (pending_timer_invariant v st Hreach) as (_ & Htimer & _).
  eexists. split; [reflexivity|].
  destruct (Htimer _ eq_refl) as (_ & _ & Hdelay & _ & _ & Hnext & _).
  split; [exact Hdelay|exact Hnext].
Defined.

End evaluation_more.
